(** * MultiSelect: interaction logic of the multi-select autocomplete

    A shallow embedding of [src/components/MultiSelect.tsx] and of the
    [useDebounce] hook.  React state cells ([useState]) become the fields
    of one record; every handler is a function from the state of the
    render it closes over to the state after its [set...] calls have
    been applied.  JavaScript numbers that hold indices are integers
    ([Z]); strings are sequences of code units below 256 (the Latin-1
    range), which is what the type [string] holds. *)

From Stdlib Require Import ZArith Lia Ascii String.
From Equations Require Import Equations.
From stdpp Require Import base relations list strings.

Local Open Scope string_scope.
Local Open Scope list_scope.
Local Open Scope Z_scope.

(** ** Data model *)

(** [interface Character]. *)
Record Character := mkCharacter {
  id : Z;
  name : string;
  image : string;
  episode : list string
}.

(** The six [useState] cells of the component, in declaration order. *)
Record State := mkState {
  selectedOptions : list string;
  searchTerm : string;
  loading : bool;
  error : option string;
  results : list Character;
  highlightedIndex : Z
}.

(** The state of the first render. *)
Definition initialState : State :=
  mkState [] "" false None [] 0.

Definition setSelectedOptions (v : list string) (st : State) : State :=
  mkState v (searchTerm st) (loading st) (error st) (results st) (highlightedIndex st).
Definition setSearchTerm (v : string) (st : State) : State :=
  mkState (selectedOptions st) v (loading st) (error st) (results st) (highlightedIndex st).
Definition setLoading (v : bool) (st : State) : State :=
  mkState (selectedOptions st) (searchTerm st) v (error st) (results st) (highlightedIndex st).
Definition setError (v : option string) (st : State) : State :=
  mkState (selectedOptions st) (searchTerm st) (loading st) v (results st) (highlightedIndex st).
Definition setResults (v : list Character) (st : State) : State :=
  mkState (selectedOptions st) (searchTerm st) (loading st) (error st) v (highlightedIndex st).
(** [setHighlightedIndex] is used both with a value and with an updater
    function of the previous value; the value form is the constant updater. *)
Definition setHighlightedIndex (f : Z → Z) (st : State) : State :=
  mkState (selectedOptions st) (searchTerm st) (loading st) (error st) (results st)
          (f (highlightedIndex st)).

(** [xs.length] as a JavaScript number. *)
Definition js_length {A} (xs : list A) : Z := Z.of_nat (length xs).

(** [xs[i]] for an integer-valued number [i]: [undefined] ([None]) when
    [i] is negative or not below the length. *)
Definition js_index {A} (xs : list A) (i : Z) : option A :=
  if bool_decide (i < 0) then None else xs !! Z.to_nat i.

(** ** Selection state: [handleOptionClick] and [handleRemoveOption] *)

Module Selection.

(** [selectedOptions.filter((item) => item !== option)] *)
Definition handleRemoveOption (option : string) (sel : list string) : list string :=
  filter (λ item, item ≠ option) sel.

(** [if (selectedOptions.includes(option)) ... else [...selectedOptions, option]] *)
Definition handleOptionClick (option : string) (sel : list string) : list string :=
  if bool_decide (option ∈ sel)
  then filter (λ item, item ≠ option) sel
  else sel ++ [option].

End Selection.

Definition handleOptionClick (option : string) (st : State) : State :=
  setSelectedOptions (Selection.handleOptionClick option (selectedOptions st)) st.

Definition handleRemoveOption (option : string) (st : State) : State :=
  setSelectedOptions (Selection.handleRemoveOption option (selectedOptions st)) st.

(** ** Keyboard navigation: [handleKeyDown] *)

Record KeyboardEvent := mkKey {
  key : string;
  shiftKey : bool
}.

Definition handleKeyDown (event : KeyboardEvent) (st : State) : State :=
  if bool_decide (key event = "ArrowDown") then
    setHighlightedIndex (λ prevIndex, Z.min (prevIndex + 1) (js_length (results st) - 1)) st
  else if bool_decide (key event = "ArrowUp") then
    setHighlightedIndex (λ prevIndex, Z.max (prevIndex - 1) 0) st
  else if bool_decide (key event = "Tab") then
    if shiftKey event then
      if bool_decide (highlightedIndex st > 0)
      then setHighlightedIndex (λ _, highlightedIndex st - 1) st
      else st
    else
      if bool_decide (highlightedIndex st < js_length (results st) - 1)
      then setHighlightedIndex (λ _, highlightedIndex st + 1) st
      else st
  else if bool_decide (key event = "Enter") then
    match js_index (results st) (highlightedIndex st) with
    | Some r => handleOptionClick (name r) st
    | None => st
    end
  else if bool_decide (key event = "Backspace") then
    if bool_decide (searchTerm st = "") && bool_decide (js_length (selectedOptions st) > 0)
    then match js_index (selectedOptions st) (js_length (selectedOptions st) - 1) with
         | Some o => handleRemoveOption o st
         | None => st
         end
    else st
  else st.

(** [event.preventDefault()] is called for the four navigation keys and
    for Enter, not for Backspace or any other key. *)
Definition defaultPrevented (event : KeyboardEvent) : bool :=
  bool_decide (key event = "ArrowDown") || bool_decide (key event = "ArrowUp")
  || bool_decide (key event = "Tab") || bool_decide (key event = "Enter").

Definition ArrowDown := mkKey "ArrowDown" false.
Definition ArrowUp := mkKey "ArrowUp" false.
Definition Tab := mkKey "Tab" false.
Definition ShiftTab := mkKey "Tab" true.
Definition Enter := mkKey "Enter" false.
Definition Backspace := mkKey "Backspace" false.

(** ** Remote search: the body of [handleSearch]

    [await axios.get(url)] either fulfils with a response, of which the
    handler reads [response.data.results], or rejects with an
    [AxiosError], of which the handler reads [error.response] and, when
    that is present, [error.response.status]. *)

Record AxiosError := mkAxiosError {
  response : option Z
}.

Inductive Settled :=
| Fulfilled (data_results : list Character)
| Rejected (err : AxiosError).

Module Search.

(** The [try] block up to the [await]: runs when the debounce timer fires. *)
Definition try_begin (st : State) : State :=
  setLoading true st.

(** The [try] block after a fulfilled [await]. *)
Definition try_resume (term : string) (data_results : list Character) (st : State) : State :=
  let st :=
    if bool_decide (term ≠ "")
    then setResults data_results st
    else setHighlightedIndex (λ _, 0) (setResults [] st) in
  setError None st.

(** The [catch] block. *)
Definition catch_block (err : AxiosError) (st : State) : State :=
  let st :=
    match response err with
    | None => setError (Some "Something wrong with network") st
    | Some status =>
        if bool_decide (status = 404)
        then setError (Some "No results found") st
        else setError (Some "Something wrong with server") st
    end in
  setResults [] st.

(** The [finally] block. *)
Definition finally_block (st : State) : State :=
  setLoading false st.

(** Everything after the [await]: the state is the one current when the
    request settles, since the handler only writes state cells. *)
Definition settle (term : string) (r : Settled) (st : State) : State :=
  finally_block
    match r with
    | Fulfilled data_results => try_resume term data_results st
    | Rejected err => catch_block err st
    end.

End Search.

(** One call of the async callback given to [useDebounce], when nothing
    else happens between its start and the settling of the request. *)
Definition handleSearch (term : string) (r : Settled) (st : State) : State :=
  Search.settle term r (Search.try_begin st).

(** [handleInputChange]: the state update; the debounced call of
    [handleSearch] is the [InputChange]-to-[SearchFired] delay below. *)
Definition handleInputChange (value : string) (st : State) : State :=
  setSearchTerm value st.

(** ** The component as a transition system

    One event per callback the component registers.  Each event is
    handled against the latest state (a render separates two events). *)

Inductive Event :=
| KeyDown (event : KeyboardEvent)
| InputChange (value : string)
| RowClick (index : nat)
| ChipRemove (option : string)
| SearchFired
| SearchSettled (term : string) (r : Settled).

Definition step (e : Event) (st : State) : State :=
  match e with
  | KeyDown event => handleKeyDown event st
  | InputChange value => handleInputChange value st
  | RowClick index =>
      match results st !! index with
      | Some r => handleOptionClick (name r) st
      | None => st
      end
  | ChipRemove option => handleRemoveOption option st
  | SearchFired => Search.try_begin st
  | SearchSettled term r => Search.settle term r st
  end.

Definition run (es : list Event) (st : State) : State :=
  foldl (λ st e, step e st) st es.

(** The invariant the data model asks of the highlighted index. *)
Definition index_in_range (st : State) : Prop :=
  results st ≠ [] → (0 ≤ highlightedIndex st ≤ js_length (results st) - 1)%Z.

#[global] Instance index_in_range_dec (st : State) : Decision (index_in_range st).
Proof. unfold index_in_range. apply _. Defined.

(** A state in which one result is listed and the highlighted index is
    5, reached by listing six results, pressing ArrowDown five times and
    receiving the one-element answer of the next query. *)
Definition someone (n : Z) : Character := mkCharacter n "Rick" "rick.png" [].

Definition shrunk_results : State :=
  run [SearchSettled "r" (Fulfilled (someone <$> [1; 2; 3; 4; 5; 6]));
       KeyDown ArrowDown; KeyDown ArrowDown; KeyDown ArrowDown;
       KeyDown ArrowDown; KeyDown ArrowDown;
       SearchSettled "ri" (Fulfilled [someone 1])]
      initialState.

(** ** [useDebounce]

    The hook owns one ref cell and uses the host's [setTimeout] and
    [clearTimeout].  The host side is a table of the timers that are set
    and have neither fired nor been cleared, a clock and a supply of
    fresh positive handles; the callback is observed through the log of
    its invocations. *)

Module Debounce.
Section Hook.

Context {Args : Type}.
Variable delay : nat.

Record Timer := mkTimer {
  handle : positive;
  due : nat;
  args : Args
}.

Record Env := mkEnv {
  timeoutRef : option positive;
  timers : list Timer;
  clock : nat;
  nextHandle : positive;
  calls : list Args;
  unmounted : bool
}.

Definition mount : Env := mkEnv None [] 0%nat 1%positive [] false.

(** [clearTimeout(h)]: an unknown or expired handle is ignored. *)
Definition clearTimeout (h : positive) (env : Env) : Env :=
  mkEnv (timeoutRef env) (filter (λ t, handle t ≠ h) (timers env))
        (clock env) (nextHandle env) (calls env) (unmounted env).

(** [setTimeout(() => callback(...args), delay)]: returns the handle. *)
Definition setTimeout (a : Args) (env : Env) : positive * Env :=
  (nextHandle env,
   mkEnv (timeoutRef env)
         (timers env ++ [mkTimer (nextHandle env) (clock env + delay)%nat a])
         (clock env) (Pos.succ (nextHandle env)) (calls env) (unmounted env)).

Definition set_timeoutRef (v : option positive) (env : Env) : Env :=
  mkEnv v (timers env) (clock env) (nextHandle env) (calls env) (unmounted env).

(** [if (timeoutRef.current) clearTimeout(timeoutRef.current)]: handles
    are positive, hence truthy. *)
Definition clear_current (env : Env) : Env :=
  match timeoutRef env with
  | Some h => clearTimeout h env
  | None => env
  end.

Definition debouncedCallback (a : Args) (env : Env) : Env :=
  let env := clear_current env in
  let '(h, env) := setTimeout a env in
  set_timeoutRef (Some h) env.

(** The cleanup function returned by the effect, run once on unmount. *)
Definition cleanup (env : Env) : Env :=
  let env := clear_current env in
  mkEnv (timeoutRef env) (timers env) (clock env) (nextHandle env) (calls env) true.

(** The host runs a due timer: it leaves the table and calls the callback.
    The ref cell keeps the stale handle. *)
Definition fire (t : Timer) (env : Env) : Env :=
  mkEnv (timeoutRef env) (filter (λ t', handle t' ≠ handle t) (timers env))
        (clock env) (nextHandle env) (args t :: calls env) (unmounted env).

Definition tick (d : nat) (env : Env) : Env :=
  mkEnv (timeoutRef env) (timers env) (clock env + d)%nat (nextHandle env)
        (calls env) (unmounted env).

(** What can happen to a mounted hook; once unmounted, the owner no
    longer receives input events, so only the host acts. *)
Inductive hook_step : Env → Env → Prop :=
| step_call a env :
    unmounted env = false → hook_step env (debouncedCallback a env)
| step_fire t env :
    t ∈ timers env → (due t ≤ clock env)%nat → hook_step env (fire t env)
| step_tick d env :
    hook_step env (tick d env)
| step_unmount env :
    unmounted env = false → hook_step env (cleanup env).

Definition reachable (env : Env) : Prop := rtc hook_step mount env.

(** The timer table holds nothing, or the one timer the ref cell names,
    and then the owner is still mounted. *)
Definition single_pending (env : Env) : Prop :=
  timers env = []
  ∨ ∃ t, timers env = [t] ∧ timeoutRef env = Some (handle t) ∧ unmounted env = false.

End Hook.
End Debounce.

(** ** Highlight formatter: [highlightSearchTerm]

    [text.split(new RegExp(`(${searchTerm})`, "gi"))] followed by the
    [map] that wraps a part in [<strong>] when it equals the search term
    up to [toLowerCase].  The pattern language is modelled for sources
    made of literal characters and [.]; a source that uses any other
    syntax character of the pattern grammar is outside the model
    ([compile] answers [None]).  [split_loop] is the loop of
    [RegExp.prototype[Symbol.split]]: [cur] is the text between the end
    of the last match ([p]) and the position being tried ([q]). *)

Module Highlight.

(** Code units [A]..[Z] and [a]..[z]. *)
Definition is_upper (c : ascii) : bool :=
  (65 <=? N_of_ascii c)%N && (N_of_ascii c <=? 90)%N.
Definition is_lower (c : ascii) : bool :=
  (97 <=? N_of_ascii c)%N && (N_of_ascii c <=? 122)%N.

(** The letters above 127 whose partner of the other case is 32 code
    units away: U+00C0..U+00DE without the multiplication sign U+00D7,
    and U+00E0..U+00FE without the division sign U+00F7. *)
Definition is_upper_latin1 (c : ascii) : bool :=
  (192 <=? N_of_ascii c)%N && (N_of_ascii c <=? 222)%N && negb (N_of_ascii c =? 215)%N.
Definition is_lower_latin1 (c : ascii) : bool :=
  (224 <=? N_of_ascii c)%N && (N_of_ascii c <=? 254)%N && negb (N_of_ascii c =? 247)%N.

(** [String.prototype.toLowerCase], on one code unit and on a string:
    below 256 the mapping is code unit by code unit and stays below 256. *)
Definition toLowerCase_unit (c : ascii) : ascii :=
  if is_upper c || is_upper_latin1 c then ascii_of_N (N_of_ascii c + 32) else c.

Fixpoint toLowerCase (s : string) : string :=
  match s with
  | EmptyString => EmptyString
  | String c s' => String (toLowerCase_unit c) (toLowerCase s')
  end.

(** [Canonicalize] of the pattern semantics under the [i] flag (no [u]
    flag): the code unit is compared after upper-casing.  The result is
    a code unit given as a number, since the upper case of U+00B5 and of
    U+00FF lies above 255 (U+039C and U+0178); U+00DF, whose upper case
    is two code units long, stays as it is. *)
Definition Canonicalize (c : ascii) : N :=
  if is_lower c || is_lower_latin1 c then (N_of_ascii c - 32)%N
  else if (N_of_ascii c =? 181)%N then 924%N
  else if (N_of_ascii c =? 255)%N then 376%N
  else N_of_ascii c.

(** The modelled patterns: a sequence of atoms inside the one capture
    group that the template puts around the search term. *)
Inductive Atom :=
| Lit (c : ascii)
| Dot.

(** [SyntaxCharacter] of the pattern grammar. *)
Definition syntax_character (c : ascii) : bool :=
  bool_decide (c ∈ list_ascii_of_string "^$\.*+?()[]{}|").

(** [new RegExp(`(${source})`, "gi")]. *)
Fixpoint compile (source : string) : option (list Atom) :=
  match source with
  | EmptyString => Some []
  | String c rest =>
      if bool_decide (c = "."%char) then (Dot ::.) <$> compile rest
      else if syntax_character c then None
      else (Lit c ::.) <$> compile rest
  end.

(** [.] matches any code unit but a line terminator. *)
Definition line_terminator (c : ascii) : bool :=
  bool_decide (c = "010"%char) || bool_decide (c = "013"%char).

Definition atom_matches (a : Atom) (c : ascii) : bool :=
  match a with
  | Lit x => bool_decide (Canonicalize x = Canonicalize c)
  | Dot => negb (line_terminator c)
  end.

(** A sticky match of the pattern at the head of [s]: the text captured
    by the group and the text after the match ([lastIndex]). *)
Fixpoint exec (pat : list Atom) (s : string) : option (string * string) :=
  match pat with
  | [] => Some (EmptyString, s)
  | a :: pat' =>
      match s with
      | EmptyString => None
      | String c s' =>
          if atom_matches a c
          then (λ '(m, rest), (String c m, rest)) <$> exec pat' s'
          else None
      end
  end.

Lemma exec_length pat s m rest :
  exec pat s = Some (m, rest) →
  String.length s = (String.length m + String.length rest)%nat.
Proof.
  revert s m rest. induction pat as [|a pat IH]; intros s m rest; simpl.
  - intros [= <- <-]. reflexivity.
  - destruct s as [|c s']; [discriminate|].
    destruct (atom_matches a c); [|discriminate].
    destruct (exec pat s') as [[m' rest']|] eqn:E; [|discriminate].
    intros [= <- <-]. simpl. rewrite (IH _ _ _ E). reflexivity.
Qed.

Definition is_empty (s : string) : bool :=
  match s with EmptyString => true | _ => false end.

Lemma is_empty_snoc cur c : is_empty (cur +:+ String c EmptyString) = false.
Proof. destruct cur; reflexivity. Qed.

(** Keeps the equation of a scrutinee for the termination proof. *)
Definition inspect {A} (a : A) : {b | a = b} := exist _ a eq_refl.

(** The [while (q < size)] loop.  A failed match, or a match that ends
    where the last one ended ([e = p]: an empty match with nothing before
    it), advances [q] by one code unit; any other match pushes the text
    before it and the capture, and restarts after the match. *)
Equations? split_loop (pat : list Atom) (cur : string) (s : string) : list string
  by wf (2 * String.length s + (if is_empty cur then 0 else 1))%nat lt :=
  split_loop pat cur EmptyString := [cur];
  split_loop pat cur (String c s') with inspect (exec pat (String c s')) => {
    | exist _ None _ := split_loop pat (cur +:+ String c EmptyString) s';
    | exist _ (Some (m, rest)) E with inspect (is_empty m && is_empty cur) => {
        | exist _ true _ := split_loop pat (cur +:+ String c EmptyString) s';
        | exist _ false E' := cur :: m :: split_loop pat EmptyString rest } }.
Proof.
  1, 3: rewrite is_empty_snoc; destruct (is_empty cur); simpl; lia.
  match goal with H : exec _ _ = Some _ |- _ =>
    apply exec_length in H; simpl in H end.
  destruct m, cur; simpl in *; try discriminate; lia.
Qed.

(** [text.split(pattern)]: the empty text is a case of its own, and the
    text after the last match is pushed when the loop ends. *)
Definition split (pat : list Atom) (s : string) : list string :=
  match s with
  | EmptyString => if exec pat EmptyString is Some _ then [] else [s]
  | _ => split_loop pat EmptyString s
  end.

(** The children of the returned [<span>]: a part wrapped in
    [<strong>], or a bare string. *)
Inductive Node :=
| Strong (part : string)
| Text (part : string).

Definition highlightSearchTerm (text searchTerm : string) : option (list Node) :=
  pat ← compile searchTerm;
  Some (map (λ part, if bool_decide (toLowerCase part = toLowerCase searchTerm)
                     then Strong part else Text part)
            (split pat text)).

(** The callback given to [parts.map], for use in statements. *)
Definition classify (searchTerm part : string) : Node :=
  if bool_decide (toLowerCase part = toLowerCase searchTerm) then Strong part else Text part.

(** *** What the formatter is asked to do

    The definitions below follow the specification, not the code: an
    occurrence of the term is a piece of the label equal to it up to
    [toLowerCase]; the label is cut at the leftmost occurrences, one
    after the other, and the cut-out pieces are the emphasised ones. *)

(** A search term with no syntax character of the pattern grammar. *)
Definition is_literal (s : string) : bool :=
  forallb (λ c, negb (syntax_character c)) (list_ascii_of_string s).

(** The pattern a literal search term compiles to. *)
Definition literal_pattern (s : string) : list Atom := Lit <$> list_ascii_of_string s.

(** [s] starts with an occurrence of [term]. *)
Definition occurs_at_head (term s : string) : Prop :=
  ∃ m rest, s = m +:+ rest ∧ toLowerCase m = toLowerCase term.

(** No occurrence of [term] in [u +:+ tail] starts inside [u]. *)
Definition no_occurrence_from (term u tail : string) : Prop :=
  ∀ u1 u2, u = u1 +:+ u2 → u2 ≠ "" → ¬ occurs_at_head term (u2 +:+ tail).

Inductive SplitsOn (term : string) : string → list Node → Prop :=
| splits_end u :
    no_occurrence_from term u "" → SplitsOn term u [Text u]
| splits_match u m rest nodes :
    no_occurrence_from term u (m +:+ rest) →
    toLowerCase m = toLowerCase term →
    SplitsOn term rest nodes →
    SplitsOn term (u +:+ m +:+ rest) (Text u :: Strong m :: nodes).

(** The label cut between every two code units, with an empty
    emphasised piece at each cut. *)
Fixpoint chars_apart (s : string) : list Node :=
  match s with
  | EmptyString => []
  | String c s' =>
      Text (String c EmptyString)
      :: match s' with EmptyString => [] | _ => Strong EmptyString :: chars_apart s' end
  end.

(** The text a list of nodes shows. *)
Definition node_text (n : Node) : string :=
  match n with Strong part => part | Text part => part end.

Definition rendered (nodes : list Node) : string :=
  foldr (λ n acc, node_text n +:+ acc) EmptyString nodes.

#[global] Instance Node_eq_dec : EqDecision Node.
Proof. solve_decision. Defined.

End Highlight.

(** ** Further definitions: the rendered rows, bursts of calls, and the
    component together with its debounced search *)

(** An error is shown only over an empty results list. *)
Definition error_excludes_results (st : State) : Prop :=
  error st = None ∨ results st = [].

Module Render.

(** The class of row [index]: highlighted when
    [index === highlightedIndex]. *)
Definition rowHighlighted (st : State) (index : nat) : bool :=
  bool_decide (Z.of_nat index = highlightedIndex st).

(** [checked={selectedOptions.includes(result.name)}] *)
Definition rowChecked (st : State) (result : Character) : bool :=
  bool_decide (name result ∈ selectedOptions st).

(** The indices, in [results.map] order, of the rows rendered with the
    highlight class. *)
Definition highlightedRows (st : State) : list nat :=
  filter (λ index, rowHighlighted st index = true) (seq 0 (length (results st))).

End Render.

Module DebounceTrace.
Section Trace.

Context {Args : Type}.
Variable delay : nat.

Import Debounce.

(** The host runs the timers that have come due. *)
Definition run_due (env : @Env Args) : @Env Args :=
  foldl (λ env t, if bool_decide (due t ≤ clock env)%nat then fire t env else env)
        env (timers env).

(** [d] milliseconds pass; a timer that comes due in that time is run
    before anything else happens. *)
Definition elapse (d : nat) (env : @Env Args) : @Env Args :=
  run_due (tick d env).

(** The wrapped function called once per entry, [gap] milliseconds after
    the previous call. *)
Definition burst (l : list (nat * Args)) (env : @Env Args) : @Env Args :=
  foldl (λ env p, debouncedCallback delay p.2 (elapse p.1 env)) env l.

(** The states the hook can reach, together with the arguments the
    wrapped function has been called with so far, latest first. *)
Inductive reached : list Args → @Env Args → Prop :=
| reached_mount : reached [] mount
| reached_call hist env a :
    reached hist env → unmounted env = false →
    reached (a :: hist) (debouncedCallback delay a env)
| reached_fire hist env t :
    reached hist env → t ∈ timers env → (due t ≤ clock env)%nat →
    reached hist (fire t env)
| reached_tick hist env d :
    reached hist env → reached hist (tick d env)
| reached_unmount hist env :
    reached hist env → unmounted env = false →
    reached hist (cleanup env).

(** What is pending is the latest call, and what has been invoked came,
    in this order, from earlier calls. *)
Definition log_follows (hist : list Args) (env : @Env Args) : Prop :=
  (timers env = [] ∧ calls env `sublist_of` hist)
  ∨ (∃ t hist', timers env = [t] ∧ hist = args t :: hist'
                 ∧ calls env `sublist_of` hist').

End Trace.
End DebounceTrace.

(** The component with its hook: [handleInputChange] sets the search
    term and calls the debounced [handleSearch] with the same value; a
    firing timer runs [handleSearch] up to its [await], which puts a
    request for the timer's argument in flight; a request in flight
    settles at any later time. *)
Module System.

Import Debounce.

Record System := mkSystem {
  ui : State;
  hook : @Env string;
  inflight : list string
}.

Definition start : System := mkSystem initialState mount [].

(** The delay given to [useDebounce]. *)
Definition delay : nat := 500.

Inductive sys_step : System → System → Prop :=
| sys_input value sys :
    unmounted (hook sys) = false →
    sys_step sys (mkSystem (handleInputChange value (ui sys))
                           (debouncedCallback delay value (hook sys))
                           (inflight sys))
| sys_key event sys :
    sys_step sys (mkSystem (handleKeyDown event (ui sys)) (hook sys) (inflight sys))
| sys_click index sys :
    sys_step sys (mkSystem (step (RowClick index) (ui sys)) (hook sys) (inflight sys))
| sys_remove option sys :
    sys_step sys (mkSystem (handleRemoveOption option (ui sys)) (hook sys) (inflight sys))
| sys_fire t sys :
    t ∈ timers (hook sys) → (due t ≤ clock (hook sys))%nat →
    sys_step sys (mkSystem (Search.try_begin (ui sys)) (fire t (hook sys))
                           (args t :: inflight sys))
| sys_settle pre term post r sys :
    inflight sys = pre ++ term :: post →
    sys_step sys (mkSystem (Search.settle term r (ui sys)) (hook sys) (pre ++ post))
| sys_tick d sys :
    sys_step sys (mkSystem (ui sys) (tick d (hook sys)) (inflight sys))
| sys_unmount sys :
    unmounted (hook sys) = false →
    sys_step sys (mkSystem (ui sys) (cleanup (hook sys)) (inflight sys)).

Definition sys_reachable (sys : System) : Prop := rtc sys_step start sys.

(** A pending search is for the text in the input box; the loading
    flag is up only while a request is in flight. *)
Definition sys_consistent (sys : System) : Prop :=
  (∀ t, t ∈ timers (hook sys) → args t = searchTerm (ui sys))
  ∧ (loading (ui sys) = true → inflight sys ≠ []).

End System.

(** The parts of a split put back together, and two patterns that match
    the same code units position by position. *)
Definition join_parts (parts : list string) : string :=
  foldr String.append EmptyString parts.

Definition same_matches (pat pat' : list Highlight.Atom) : Prop :=
  Forall2 (λ a b, ∀ c, Highlight.atom_matches a c = Highlight.atom_matches b c) pat pat'.

(** * Properties *)

(** ** Selection set *)

Section SelectionFacts.

Implicit Types (sel : list string) (label : string).

Lemma remove_is_filter label sel :
  Selection.handleRemoveOption label sel = filter (λ item, item ≠ label) sel.
Proof. reflexivity. Qed.

Lemma toggle_present label sel :
  label ∈ sel →
  Selection.handleOptionClick label sel = filter (λ item, item ≠ label) sel.
Proof.
  intros Hin. unfold Selection.handleOptionClick.
  rewrite bool_decide_eq_true_2; done.
Qed.

Lemma toggle_absent label sel :
  label ∉ sel → Selection.handleOptionClick label sel = sel ++ [label].
Proof.
  intros Hin. unfold Selection.handleOptionClick.
  rewrite bool_decide_eq_false_2; done.
Qed.

(** Filtering out a label that does not occur changes nothing. *)
Lemma filter_absent label sel :
  label ∉ sel → filter (λ item, item ≠ label) sel = sel.
Proof.
  induction sel as [|x sel IH]; intros Hin; [done|].
  apply not_elem_of_cons in Hin as [Hne Hin].
  rewrite filter_cons_True by congruence. by rewrite IH.
Qed.

Lemma filter_self_absent label sel :
  label ∉ filter (λ item, item ≠ label) sel.
Proof. rewrite list_elem_of_filter. intros [Hne _]. by apply Hne. Qed.

(** In a duplicate-free list, filtering out the last element drops it. *)
Lemma filter_last label sel :
  NoDup (sel ++ [label]) →
  filter (λ item, item ≠ label) (sel ++ [label]) = sel.
Proof.
  intros Hnd. apply NoDup_app in Hnd as (_ & Hdisj & _).
  rewrite filter_app, filter_singleton_False, app_nil_r by (try exact []; tauto).
  apply filter_absent. intros Hin. apply (Hdisj _ Hin). by left.
Qed.

Lemma toggle_twice_absent label sel :
  label ∉ sel →
  Selection.handleOptionClick label (Selection.handleOptionClick label sel) = sel.
Proof.
  intros Hin. rewrite (toggle_absent _ _ Hin).
  rewrite toggle_present by (apply elem_of_app; right; by left).
  rewrite filter_app, filter_singleton_False, app_nil_r by (try exact []; tauto).
  by apply filter_absent.
Qed.

Lemma toggle_twice_present label sel :
  label ∈ sel →
  Selection.handleOptionClick label (Selection.handleOptionClick label sel)
  = filter (λ item, item ≠ label) sel ++ [label].
Proof.
  intros Hin. rewrite (toggle_present _ _ Hin).
  apply toggle_absent, filter_self_absent.
Qed.

(** A duplicate-free list with [label] in it is a permutation of the
    list without it followed by [label]. *)
Lemma filter_snoc_perm label sel :
  NoDup sel → label ∈ sel →
  filter (λ item, item ≠ label) sel ++ [label] ≡ₚ sel.
Proof.
  intros Hnd Hin. apply NoDup_Permutation; [| done |].
  - apply NoDup_app. split; [by apply NoDup_filter|]. split; [|apply NoDup_singleton].
    intros x Hx Hx'. apply list_elem_of_singleton in Hx'. subst x.
    by apply filter_self_absent in Hx.
  - intros x. rewrite elem_of_app, list_elem_of_filter, list_elem_of_singleton.
    destruct (decide (x = label)) as [->|Hne]; [split; [done | by right]|].
    split; [intros [[_ Hx]|Hx]; done | by left].
Qed.

Lemma toggle_keeps_NoDup label sel :
  NoDup sel → NoDup (Selection.handleOptionClick label sel).
Proof.
  intros Hnd. destruct (decide (label ∈ sel)) as [Hin|Hin].
  - rewrite toggle_present by done. by apply NoDup_filter.
  - rewrite toggle_absent by done. apply NoDup_app.
    split; [done|]. split; [|apply NoDup_singleton].
    intros x Hx Hx'. apply list_elem_of_singleton in Hx'. by subst x.
Qed.

End SelectionFacts.

(** C2 (as amended).  Toggling a label twice keeps the contents of a
    duplicate-free selection; it gives back the original sequence when
    the label was not selected, and otherwise moves the label to the end,
    so that the order is the original one exactly when the label was
    absent or already last. *)
Theorem toggle_twice (sel : list string) (label : string) :
  NoDup sel →
  (label ∉ sel →
     Selection.handleOptionClick label (Selection.handleOptionClick label sel) = sel)
  ∧ (label ∈ sel →
     Selection.handleOptionClick label (Selection.handleOptionClick label sel)
     = filter (λ item, item ≠ label) sel ++ [label])
  ∧ Selection.handleOptionClick label (Selection.handleOptionClick label sel) ≡ₚ sel
  ∧ (Selection.handleOptionClick label (Selection.handleOptionClick label sel) = sel
     ↔ label ∉ sel ∨ last sel = Some label).
Proof.
  intros Hnd. split; [apply toggle_twice_absent|]. split; [apply toggle_twice_present|].
  destruct (decide (label ∈ sel)) as [Hin|Hin].
  - rewrite (toggle_twice_present _ _ Hin). split; [by apply filter_snoc_perm|].
    split.
    + intros Heq. right. rewrite <- Heq. apply last_snoc.
    + intros [Hout|Hlast]; [done|].
      destruct (last_Some sel label) as [[sel' ->] _]; [done|].
      by rewrite filter_last.
  - rewrite (toggle_twice_absent _ _ Hin). split; [done|]. split; [by left|done].
Qed.

Lemma toggle_twice_witness :
  NoDup ["Rick"; "Morty"] ∧
  Selection.handleOptionClick "Summer"
    (Selection.handleOptionClick "Summer" ["Rick"; "Morty"]) = ["Rick"; "Morty"].
Proof.
  assert (Hnd : NoDup ["Rick"; "Morty"]) by compute_done.
  split; [exact Hnd|].
  apply (toggle_twice ["Rick"; "Morty"] "Summer" Hnd).
  compute_done.
Defined.

(** Toggling a selected label that is not the last one twice changes the
    order: the label comes back at the end. *)
Lemma toggle_twice_reorders :
  Selection.handleOptionClick "Rick"
    (Selection.handleOptionClick "Rick" ["Rick"; "Morty"]) = ["Morty"; "Rick"]
  ∧ bool_decide (["Morty"; "Rick"] = ["Rick"; "Morty"]) = false.
Proof. split; vm_compute; reflexivity. Qed.

(** C8.  Toggle and remove keep a duplicate-free selection duplicate-free
    and keep the surviving labels in their relative order: a removal
    (by either operation) leaves a subsequence of the selection, and an
    addition appends the new label after all the others. *)
Theorem selection_ops_keep_invariant (sel : list string) (label : string) :
  NoDup sel →
  NoDup (Selection.handleOptionClick label sel)
  ∧ NoDup (Selection.handleRemoveOption label sel)
  ∧ Selection.handleRemoveOption label sel `sublist_of` sel
  ∧ (label ∈ sel → Selection.handleOptionClick label sel `sublist_of` sel)
  ∧ (label ∉ sel → Selection.handleOptionClick label sel = sel ++ [label]).
Proof.
  intros Hnd. repeat split.
  - by apply toggle_keeps_NoDup.
  - by apply NoDup_filter.
  - apply sublist_filter.
  - intros Hin. rewrite toggle_present by done. apply sublist_filter.
  - apply toggle_absent.
Qed.

Lemma selection_ops_keep_invariant_witness :
  NoDup ["Rick"; "Morty"; "Summer"] ∧
  NoDup (Selection.handleOptionClick "Morty" ["Rick"; "Morty"; "Summer"]).
Proof.
  assert (Hnd : NoDup ["Rick"; "Morty"; "Summer"])
    by compute_done.
  split; [exact Hnd|].
  apply (selection_ops_keep_invariant ["Rick"; "Morty"; "Summer"] "Morty" Hnd).
Defined.

(** ** Keyboard navigation *)

Section KeyboardFacts.

Implicit Types (st : State) (shift : bool).

(** The branch of the [switch] taken for each of the handled keys. *)
Lemma keyDown_ArrowDown shift st :
  handleKeyDown (mkKey "ArrowDown" shift) st
  = setHighlightedIndex (λ prevIndex, Z.min (prevIndex + 1) (js_length (results st) - 1)) st.
Proof. reflexivity. Qed.

Lemma keyDown_ArrowUp shift st :
  handleKeyDown (mkKey "ArrowUp" shift) st
  = setHighlightedIndex (λ prevIndex, Z.max (prevIndex - 1) 0) st.
Proof. reflexivity. Qed.

Lemma keyDown_Tab st :
  handleKeyDown Tab st
  = if bool_decide (highlightedIndex st < js_length (results st) - 1)
    then setHighlightedIndex (λ _, highlightedIndex st + 1) st else st.
Proof. reflexivity. Qed.

Lemma keyDown_ShiftTab st :
  handleKeyDown ShiftTab st
  = if bool_decide (highlightedIndex st > 0)
    then setHighlightedIndex (λ _, highlightedIndex st - 1) st else st.
Proof. reflexivity. Qed.

Lemma keyDown_Enter shift st :
  handleKeyDown (mkKey "Enter" shift) st
  = match js_index (results st) (highlightedIndex st) with
    | Some r => handleOptionClick (name r) st
    | None => st
    end.
Proof. reflexivity. Qed.

Lemma keyDown_Backspace shift st :
  handleKeyDown (mkKey "Backspace" shift) st
  = if bool_decide (searchTerm st = "") && bool_decide (js_length (selectedOptions st) > 0)
    then match js_index (selectedOptions st) (js_length (selectedOptions st) - 1) with
         | Some o => handleRemoveOption o st
         | None => st
         end
    else st.
Proof. reflexivity. Qed.

(** [xs[i]] is [undefined] exactly outside [0 .. xs.length - 1]. *)
Lemma js_index_None {A} (xs : list A) (i : Z) :
  js_index xs i = None ↔ i < 0 ∨ js_length xs ≤ i.
Proof.
  unfold js_index, js_length. case_bool_decide as Hi.
  - split; [by left|done].
  - rewrite lookup_ge_None. lia.
Qed.

(** [xs[xs.length - 1]] is the last element. *)
Lemma js_index_last {A} (xs : list A) (x : A) :
  js_index (xs ++ [x]) (js_length (xs ++ [x]) - 1) = Some x.
Proof.
  unfold js_index, js_length. rewrite length_app. simpl.
  rewrite bool_decide_eq_false_2 by lia.
  replace (Z.to_nat (Z.of_nat (length xs + 1) - 1)) with (length xs) by lia.
  apply list_lookup_middle. reflexivity.
Qed.

End KeyboardFacts.


(** C6 (as amended).  ArrowDown sets the index to the increment clamped
    to [results.length - 1] and ArrowUp to the decrement clamped to 0,
    from every index.  Tab moves forward by one only from below
    [results.length - 1] and Shift+Tab backward by one only from above 0,
    leaving the index alone otherwise; these are the clamped moves when
    the starting index is at most [results.length - 1], respectively at
    least 0. *)
Theorem navigation_keys (st : State) (shift : bool) :
  let i := highlightedIndex st in
  let bound := js_length (results st) - 1 in
  (highlightedIndex (handleKeyDown (mkKey "ArrowDown" shift) st) = Z.min (i + 1) bound
   ∧ highlightedIndex (handleKeyDown (mkKey "ArrowDown" shift) st) ≤ bound)
  ∧ (highlightedIndex (handleKeyDown (mkKey "ArrowUp" shift) st) = Z.max (i - 1) 0
     ∧ 0 ≤ highlightedIndex (handleKeyDown (mkKey "ArrowUp" shift) st))
  ∧ (highlightedIndex (handleKeyDown Tab st) = (if bool_decide (i < bound) then i + 1 else i)
     ∧ (i ≤ bound → highlightedIndex (handleKeyDown Tab st) = Z.min (i + 1) bound))
  ∧ (highlightedIndex (handleKeyDown ShiftTab st) = (if bool_decide (i > 0) then i - 1 else i)
     ∧ (0 ≤ i → highlightedIndex (handleKeyDown ShiftTab st) = Z.max (i - 1) 0))
  ∧ results (handleKeyDown (mkKey "ArrowDown" shift) st) = results st
  ∧ results (handleKeyDown (mkKey "ArrowUp" shift) st) = results st
  ∧ results (handleKeyDown Tab st) = results st
  ∧ results (handleKeyDown ShiftTab st) = results st.
Proof.
  intros i bound.
  rewrite keyDown_ArrowDown, keyDown_ArrowUp, keyDown_Tab, keyDown_ShiftTab.
  fold i bound. simpl.
  repeat split; try lia; repeat case_bool_decide; simpl; fold i; lia || reflexivity.
Qed.

(** With one result listed and the index at 5, Tab leaves the index at 5,
    whereas the increment clamped to [results.length - 1] is 0 (which is
    where ArrowDown puts it).  With no result listed, ArrowDown puts the
    index at -1, and Shift+Tab leaves it there, whereas the decrement
    clamped to 0 is 0. *)
Lemma tab_not_clamped :
  (js_length (results shrunk_results) = 1
   ∧ highlightedIndex shrunk_results = 5
   ∧ highlightedIndex (handleKeyDown Tab shrunk_results) = 5
   ∧ Z.min (5 + 1) (js_length (results shrunk_results) - 1) = 0
   ∧ highlightedIndex (handleKeyDown ArrowDown shrunk_results) = 0)
  ∧ (highlightedIndex (handleKeyDown ArrowDown initialState) = -1
     ∧ highlightedIndex (handleKeyDown ShiftTab (handleKeyDown ArrowDown initialState)) = -1
     ∧ Z.max (-1 - 1) 0 = 0).
Proof. repeat split; vm_compute; reflexivity. Qed.

(** C7.  Backspace removes the last selected label (the one added most
    recently) when the search term is empty and the selection is not;
    otherwise, and in particular with any non-empty search term, it
    leaves the selection as it is.  The rest of the state never changes. *)
Theorem backspace_removes_last (st : State) (shift : bool) :
  NoDup (selectedOptions st) →
  (∀ init x, searchTerm st = "" → selectedOptions st = init ++ [x] →
     selectedOptions (handleKeyDown (mkKey "Backspace" shift) st) = init)
  ∧ (searchTerm st ≠ "" →
     selectedOptions (handleKeyDown (mkKey "Backspace" shift) st) = selectedOptions st)
  ∧ (selectedOptions st = [] →
     selectedOptions (handleKeyDown (mkKey "Backspace" shift) st) = selectedOptions st)
  ∧ (selectedOptions (handleKeyDown (mkKey "Backspace" shift) st) ≠ selectedOptions st
     ↔ searchTerm st = "" ∧ selectedOptions st ≠ [])
  ∧ handleKeyDown (mkKey "Backspace" shift) st
    = setSelectedOptions (selectedOptions (handleKeyDown (mkKey "Backspace" shift) st)) st.
Proof.
  intros Hnd. rewrite keyDown_Backspace.
  assert (Hlast : ∀ init x, searchTerm st = "" → selectedOptions st = init ++ [x] →
    selectedOptions
      (if bool_decide (searchTerm st = "") && bool_decide (js_length (selectedOptions st) > 0)
       then match js_index (selectedOptions st) (js_length (selectedOptions st) - 1) with
            | Some o => handleRemoveOption o st
            | None => st
            end
       else st) = init).
  { intros init x Hterm Hsel.
    rewrite (bool_decide_eq_true_2 _ Hterm), Hsel, js_index_last.
    rewrite bool_decide_eq_true_2
      by (unfold js_length; rewrite length_app; simpl; lia).
    simpl. rewrite Hsel. apply filter_last. by rewrite <- Hsel. }
  assert (Hterm : searchTerm st ≠ "" →
    (if bool_decide (searchTerm st = "") && bool_decide (js_length (selectedOptions st) > 0)
       then match js_index (selectedOptions st) (js_length (selectedOptions st) - 1) with
            | Some o => handleRemoveOption o st
            | None => st
            end
       else st) = st).
  { intros Hne. by rewrite (bool_decide_eq_false_2 _ Hne). }
  assert (Hnil : selectedOptions st = [] →
    (if bool_decide (searchTerm st = "") && bool_decide (js_length (selectedOptions st) > 0)
       then match js_index (selectedOptions st) (js_length (selectedOptions st) - 1) with
            | Some o => handleRemoveOption o st
            | None => st
            end
       else st) = st).
  { intros ->. rewrite andb_comm. reflexivity. }
  split; [exact Hlast|]. split; [by intros ->%Hterm|]. split; [by intros ->%Hnil|].
  split.
  - split.
    + intros Hchg. split.
      * destruct (decide (searchTerm st = "")) as [|Hne]; [done|].
        by rewrite Hterm in Hchg.
      * intros Hsel. by rewrite Hnil in Hchg.
    + intros [Hempty Hsel].
      assert (∃ init x, selectedOptions st = init ++ [x]) as (init & x & E).
      { revert Hsel. generalize (selectedOptions st). intros l Hl.
        destruct l as [|y l _] using rev_ind; [done | eauto]. }
      rewrite (Hlast init x Hempty E), E. intros Heq.
      apply (f_equal length) in Heq. rewrite length_app in Heq. simpl in Heq. lia.
  - destruct st as [sel term ld er rs hi]; simpl in *.
    repeat case_bool_decide; simpl; try reflexivity.
    destruct (js_index sel (js_length sel - 1)); reflexivity.
Qed.

Lemma backspace_removes_last_witness :
  NoDup ["Rick"; "Morty"] ∧
  selectedOptions
    (handleKeyDown Backspace (mkState ["Rick"; "Morty"] "" false None [] 0))
  = ["Rick"].
Proof.
  assert (Hnd : NoDup ["Rick"; "Morty"]) by compute_done.
  split; [exact Hnd|].
  apply (proj1 (backspace_removes_last
                  (mkState ["Rick"; "Morty"] "" false None [] 0) false Hnd)
           ["Rick"] "Morty"); reflexivity.
Defined.

(** C10.  When no result sits at the highlighted index (the index is
    negative or not below [results.length], as with an empty list), the
    guard of the Enter branch reads [undefined] and Enter changes nothing:
    selection, results and index stay as they are. *)
Theorem enter_without_result (st : State) (shift : bool) :
  highlightedIndex st < 0 ∨ js_length (results st) ≤ highlightedIndex st →
  js_index (results st) (highlightedIndex st) = None
  ∧ handleKeyDown (mkKey "Enter" shift) st = st.
Proof.
  intros Hout. apply js_index_None in Hout.
  split; [done|]. rewrite keyDown_Enter. by rewrite Hout.
Qed.

Lemma enter_without_result_witness :
  (highlightedIndex initialState < 0
   ∨ js_length (results initialState) ≤ highlightedIndex initialState)
  ∧ handleKeyDown Enter initialState = initialState.
Proof.
  assert (Hout : highlightedIndex initialState < 0
                 ∨ js_length (results initialState) ≤ highlightedIndex initialState)
    by (right; vm_compute; discriminate).
  split; [exact Hout|].
  apply (enter_without_result initialState false Hout).
Defined.

(** ** Remote search *)

Section SearchFacts.

Implicit Types (st : State) (term : string).

(** Whatever the outcome, settling only writes [loading], [error],
    [results] and possibly [highlightedIndex]. *)
Lemma settle_keeps_selection term r st :
  selectedOptions (Search.settle term r st) = selectedOptions st
  ∧ searchTerm (Search.settle term r st) = searchTerm st.
Proof.
  destruct r as [data|[[status|]]]; unfold Search.settle, Search.try_resume,
    Search.catch_block; simpl; repeat case_bool_decide; done.
Qed.

End SearchFacts.

(** C4.  A rejected request is classified by exactly one of three
    messages, which are pairwise different: no response gives the
    network message, a response with status 404 the not-found message,
    a response with any other status the server message.  In the three
    cases the results list is cleared. *)
Theorem error_classification (term : string) (err : AxiosError) (st : State) :
  (response err = None →
     error (Search.settle term (Rejected err) st) = Some "Something wrong with network")
  ∧ (response err = Some 404 →
     error (Search.settle term (Rejected err) st) = Some "No results found")
  ∧ (∀ status, response err = Some status → status ≠ 404 →
     error (Search.settle term (Rejected err) st) = Some "Something wrong with server")
  ∧ results (Search.settle term (Rejected err) st) = []
  ∧ (error (handleSearch term (Rejected err) st)
     = error (Search.settle term (Rejected err) st)
     ∧ results (handleSearch term (Rejected err) st) = [])
  ∧ ("Something wrong with network" ≠ "No results found"
     ∧ "Something wrong with network" ≠ "Something wrong with server"
     ∧ "No results found" ≠ "Something wrong with server").
Proof.
  unfold handleSearch, Search.settle, Search.catch_block, Search.try_begin.
  destruct err as [[status|]]; simpl.
  - case_bool_decide as Hs; simpl; repeat split; try done.
    + intros status' Hst Hne. congruence.
    + intros Hst. congruence.
  - repeat split; done.
Qed.

Lemma error_classification_witness :
  error (Search.settle "zzz" (Rejected (mkAxiosError (Some 404))) initialState)
  = Some "No results found".
Proof.
  apply (proj1 (proj2 (error_classification "zzz" (mkAxiosError (Some 404)) initialState))).
  reflexivity.
Defined.

(** C5.  The part of the handler that runs before the request sets
    [loading] and nothing else; the part that runs once the request has
    settled ends, fulfilled or rejected, with [loading] false, from any
    state the component is in by then; so a whole query ends with
    [loading] false. *)
Theorem loading_flag (term : string) (st : State) :
  loading (Search.try_begin st) = true
  ∧ Search.try_begin st = setLoading true st
  ∧ (∀ r st', loading (Search.settle term r st') = false)
  ∧ (∀ r st', Search.settle term r st'
              = Search.finally_block
                  match r with
                  | Fulfilled data_results => Search.try_resume term data_results st'
                  | Rejected err => Search.catch_block err st'
                  end)
  ∧ (∀ r, loading (handleSearch term r st) = false).
Proof. repeat split. Qed.

(** ** The highlighted index *)

Section IndexFacts.

Implicit Types (st : State).

(** The parts of the data-model invariant that the code does keep: the
    arrow keys, Tab and Shift+Tab keep an index that is in range in range, and an
    answer to the empty term resets the index. *)
Lemma navigation_keeps_index_in_range st event :
  key event = "ArrowDown" ∨ key event = "ArrowUp" ∨ key event = "Tab" →
  index_in_range st → index_in_range (handleKeyDown event st).
Proof.
  unfold index_in_range, handleKeyDown, js_length.
  destruct event as [k shift]; simpl.
  intros [-> | [-> | ->]] Hin; simpl.
  - intros Hne. specialize (Hin Hne). lia.
  - intros Hne. specialize (Hin Hne). lia.
  - destruct shift; case_bool_decide; simpl; intros Hne; specialize (Hin Hne); lia.
Qed.

Lemma empty_term_resets_index data_results st :
  highlightedIndex (Search.settle "" (Fulfilled data_results) st) = 0
  ∧ results (Search.settle "" (Fulfilled data_results) st) = [].
Proof. split; reflexivity. Qed.

(** The selection stays duplicate-free along every run of the component. *)
Lemma step_keeps_NoDup e st :
  NoDup (selectedOptions st) → NoDup (selectedOptions (step e st)).
Proof.
  intros Hnd. destruct e as [event|value|index|option| |term r];
    unfold step; try done.
  - unfold handleKeyDown.
    case_bool_decide; [done|]. case_bool_decide; [done|].
    case_bool_decide.
    { destruct (shiftKey event); case_bool_decide; done. }
    case_bool_decide.
    { destruct (js_index _ _); [|done]. simpl. by apply toggle_keeps_NoDup. }
    case_bool_decide; [|done].
    destruct (_ && _); [|done]. destruct (js_index _ _); [|done]. simpl.
    by apply NoDup_filter.
  - destruct (_ !! _); [|done]. simpl. by apply toggle_keeps_NoDup.
  - simpl. by apply NoDup_filter.
  - by rewrite (proj1 (settle_keeps_selection term r st)).
Qed.

Lemma run_keeps_NoDup es st :
  NoDup (selectedOptions st) → NoDup (selectedOptions (run es st)).
Proof.
  revert st. induction es as [|e es IH]; intros st Hnd; [done|].
  apply IH, step_keeps_NoDup, Hnd.
Qed.

End IndexFacts.


(** C1 (evaluation of the code where it departs from the invariant).
    A fulfilled request for a non-empty term stores the new results and
    leaves the highlighted index alone: after six results and five
    ArrowDown, a one-element answer leaves the index at 5, outside
    [0 .. 0].  A rejected request empties the results and the start of a
    query changes only [loading]; neither resets the index, unlike the
    answer to the empty term. *)
Theorem index_not_reset_by_search :
  (js_length (results shrunk_results) = 1
   ∧ highlightedIndex shrunk_results = 5
   ∧ bool_decide (index_in_range shrunk_results) = false)
  ∧ (results (step (SearchSettled "ri" (Rejected (mkAxiosError None))) shrunk_results) = []
     ∧ highlightedIndex
         (step (SearchSettled "ri" (Rejected (mkAxiosError None))) shrunk_results) = 5)
  ∧ highlightedIndex (step SearchFired shrunk_results) = 5
  ∧ highlightedIndex (step (SearchSettled "" (Fulfilled [])) shrunk_results) = 0.
Proof. repeat split; vm_compute; reflexivity. Qed.

(** ** Debounce *)

Section DebounceFacts.

Context {Args : Type}.
Variable delay : nat.

Import Debounce.

Implicit Types (env : @Env Args) (a : Args).


Lemma clear_current_empties env :
  single_pending env → timers (clear_current env) = [].
Proof.
  unfold clear_current. intros [Hnil | (t & Ht & Href & _)].
  - destruct (timeoutRef env); simpl; by rewrite ?Hnil.
  - rewrite Href. simpl. rewrite Ht. by rewrite filter_cons_False, filter_nil by tauto.
Qed.

Lemma call_schedules_one env a :
  single_pending env →
  timers (debouncedCallback delay a env)
  = [mkTimer (nextHandle env) (clock env + delay)%nat a]
  ∧ timeoutRef (debouncedCallback delay a env) = Some (nextHandle env)
  ∧ calls (debouncedCallback delay a env) = calls env
  ∧ unmounted (debouncedCallback delay a env) = unmounted env.
Proof.
  intros Hinv. unfold debouncedCallback, setTimeout, set_timeoutRef. simpl.
  rewrite (clear_current_empties _ Hinv).
  unfold clear_current. destruct (timeoutRef env); done.
Qed.

Lemma cleanup_cancels env :
  single_pending env →
  timers (cleanup env) = [] ∧ unmounted (cleanup env) = true
  ∧ calls (cleanup env) = calls env.
Proof.
  intros Hinv. unfold cleanup. simpl. rewrite (clear_current_empties _ Hinv).
  unfold clear_current. destruct (timeoutRef env); done.
Qed.

Lemma step_keeps_single_pending env env' :
  hook_step delay env env' → single_pending env → single_pending env'.
Proof.
  intros Hstep Hinv. destruct Hstep as [a env Hm | t env Ht Hdue | d env | env Hm].
  - destruct (call_schedules_one env a Hinv) as (Ht & Href & _ & Hu).
    right. eexists. split; [exact Ht|]. split; [exact Href|]. by rewrite Hu.
  - left. destruct Hinv as [Hnil | (t' & Ht' & _)]; simpl.
    + by rewrite Hnil.
    + rewrite Ht' in Ht |- *. apply list_elem_of_singleton in Ht as ->.
      by rewrite filter_cons_False, filter_nil by tauto.
  - exact Hinv.
  - left. by apply cleanup_cancels.
Qed.

Lemma reachable_single_pending env :
  reachable delay env → single_pending env.
Proof.
  unfold reachable. revert env. apply rtc_ind_r; [by left|].
  intros env1 env2 _ Hstep IH. by apply (step_keeps_single_pending env1).
Qed.

(** Once unmounted with an empty table, nothing but the clock moves. *)
Lemma unmounted_is_quiet env env' :
  rtc (hook_step delay) env env' →
  unmounted env = true → timers env = [] →
  calls env' = calls env ∧ timers env' = [] ∧ unmounted env' = true.
Proof.
  induction 1 as [env | env env1 env' Hstep _ IH]; intros Hu Ht; [done|].
  destruct Hstep as [a env Hm | t env Hin Hdue | d env | env Hm].
  - congruence.
  - rewrite Ht in Hin. by apply elem_of_nil in Hin.
  - apply IH; done.
  - congruence.
Qed.

End DebounceFacts.

(** C9.  In every state the hook can reach, at most one scheduled call
    is pending.  A call of the wrapped function leaves exactly one timer
    pending, the new one, due [delay] after the call and carrying the
    arguments of that call, whatever was pending before.  The cleanup run
    on unmount leaves no timer pending, and from then on the callback is
    not invoked any more. *)
Theorem debounce_single_timer {Args : Type} (delay : nat) (env : @Debounce.Env Args) :
  Debounce.reachable delay env →
  (length (Debounce.timers env) ≤ 1)%nat
  ∧ (∀ a, Debounce.timers (Debounce.debouncedCallback delay a env)
          = [Debounce.mkTimer (Debounce.nextHandle env)
                              (Debounce.clock env + delay)%nat a]
          ∧ Debounce.timeoutRef (Debounce.debouncedCallback delay a env)
            = Some (Debounce.nextHandle env)
          ∧ Debounce.calls (Debounce.debouncedCallback delay a env)
            = Debounce.calls env)
  ∧ (∀ t, t ∈ Debounce.timers env →
          Debounce.timers (Debounce.fire t env) = []
          ∧ Debounce.calls (Debounce.fire t env) = Debounce.args t :: Debounce.calls env)
  ∧ Debounce.timers (Debounce.cleanup env) = []
  ∧ (∀ env', rtc (Debounce.hook_step delay) (Debounce.cleanup env) env' →
             Debounce.calls env' = Debounce.calls env
             ∧ Debounce.timers env' = []).
Proof.
  intros Hr. pose proof (reachable_single_pending delay env Hr) as Hinv.
  split; [|split; [|split; [|split]]].
  - destruct Hinv as [-> | (t & -> & _)]; simpl; lia.
  - intros a. destruct (call_schedules_one delay env a Hinv) as (? & ? & ? & _). done.
  - intros t Ht. split; [|done].
    destruct Hinv as [Hnil | (t' & Ht' & _)]; simpl.
    + rewrite Hnil in Ht. by apply elem_of_nil in Ht.
    + rewrite Ht' in Ht |- *. apply list_elem_of_singleton in Ht as ->.
      by rewrite filter_cons_False, filter_nil by tauto.
  - by apply cleanup_cancels.
  - intros env' Hsteps.
    destruct (cleanup_cancels env Hinv) as (Ht & Hu & Hc).
    destruct (unmounted_is_quiet delay _ _ Hsteps Hu Ht) as (Hc' & Ht' & _).
    split; [congruence | done].
Qed.

Lemma debounce_single_timer_witness :
  Debounce.reachable 500 (Debounce.debouncedCallback 500 "ri" Debounce.mount)
  ∧ Debounce.timers
      (Debounce.debouncedCallback 500 "ric"
         (Debounce.debouncedCallback 500 "ri" Debounce.mount))
    = [Debounce.mkTimer 2%positive 500%nat "ric"].
Proof.
  assert (Hr : Debounce.reachable 500 (Debounce.debouncedCallback 500 "ri" Debounce.mount))
    by (apply rtc_once, Debounce.step_call; reflexivity).
  split; [exact Hr|].
  apply (debounce_single_timer 500 _ Hr).
Defined.

(** ** Highlight formatter *)

Section HighlightFacts.

Import Highlight.

Lemma append_cons c s t : String c s +:+ t = String c (s +:+ t).
Proof. reflexivity. Qed.
Lemma append_nil_l s : "" +:+ s = s.
Proof. reflexivity. Qed.
Lemma append_nil_r s : s +:+ "" = s.
Proof. induction s as [|c s IH]; [done|]. by rewrite append_cons, IH. Qed.
Lemma append_assoc s t u : (s +:+ t) +:+ u = s +:+ t +:+ u.
Proof. induction s as [|c s IH]; [done|]. by rewrite !append_cons, IH. Qed.

Lemma split_loop_nil pat cur : split_loop pat cur "" = [cur].
Proof. by simp split_loop. Qed.

Lemma split_loop_cons pat cur c s' :
  split_loop pat cur (String c s')
  = match exec pat (String c s') with
    | None => split_loop pat (cur +:+ String c "") s'
    | Some (m, rest) =>
        if is_empty m && is_empty cur
        then split_loop pat (cur +:+ String c "") s'
        else cur :: m :: split_loop pat "" rest
    end.
Proof.
  simp split_loop.
  destruct (inspect (exec pat (String c s'))) as [[[m rest]|] E]; simpl.
  - rewrite E. destruct (inspect (is_empty m && is_empty cur)) as [[] E']; simpl; by rewrite E'.
  - by rewrite E.
Qed.

(** The lower case of a code unit can be read off its canonical form,
    and the canonical form off its lower case: the two foldings identify
    the same code units below 256. *)
Lemma lower_Canonicalize c :
  toLowerCase_unit c
  = if (Canonicalize c =? 924)%N then ascii_of_N 181
    else if (Canonicalize c =? 376)%N then ascii_of_N 255
    else toLowerCase_unit (ascii_of_N (Canonicalize c)).
Proof. destruct c as [[] [] [] [] [] [] [] []]; reflexivity. Qed.
Lemma Canonicalize_lower c : Canonicalize (toLowerCase_unit c) = Canonicalize c.
Proof. destruct c as [[] [] [] [] [] [] [] []]; reflexivity. Qed.

Lemma Canonicalize_eq_iff c d :
  Canonicalize c = Canonicalize d ↔ toLowerCase_unit c = toLowerCase_unit d.
Proof.
  split; intros Heq.
  - by rewrite (lower_Canonicalize c), (lower_Canonicalize d), Heq.
  - by rewrite <- (Canonicalize_lower c), Heq, Canonicalize_lower.
Qed.



Lemma compile_literal term :
  is_literal term = true → compile term = Some (literal_pattern term).
Proof.
  unfold is_literal, literal_pattern.
  induction term as [|c term IH]; simpl; [done|].
  intros [Hc Hrest]%andb_prop. rewrite (IH Hrest). 
  case_bool_decide as Hdot.
  - subst c. done.
  - apply negb_true_iff in Hc. by rewrite Hc.
Qed.

Lemma exec_literal_Some term s m rest :
  exec (literal_pattern term) s = Some (m, rest) →
  s = m +:+ rest ∧ toLowerCase m = toLowerCase term.
Proof.
  unfold literal_pattern. revert s m rest.
  induction term as [|a term IH]; intros s m rest; simpl.
  - by intros [= <- <-].
  - destruct s as [|c s']; [done|].
    case_bool_decide as Hc; [|done]. simpl.
    destruct (exec _ s') as [[m' rest']|] eqn:E; [|done]. simpl.
    intros [= <- <-]. destruct (IH _ _ _ E) as [-> Hl].
    split; [done|]. simpl. apply Canonicalize_eq_iff in Hc. by rewrite Hl, Hc.
Qed.

Lemma toLowerCase_app s t : toLowerCase (s +:+ t) = toLowerCase s +:+ toLowerCase t.
Proof. induction s as [|c s IH]; [done|]. rewrite append_cons. simpl. by rewrite IH. Qed.

Lemma exec_literal_None term s :
  exec (literal_pattern term) s = None → ¬ occurs_at_head term s.
Proof.
  unfold literal_pattern, occurs_at_head. revert s.
  induction term as [|a term IH]; intros s; simpl; [done|].
  intros Hex (m & rest & -> & Hl).
  destruct m as [|c m]; [done|]. simpl in Hl. injection Hl as Hc Hl.
  rewrite append_cons in Hex.
  rewrite bool_decide_eq_true_2 in Hex by (by apply Canonicalize_eq_iff).
  destruct (exec _ (m +:+ rest)) as [[m' rest']|] eqn:E; [done|].
  apply (IH _ E). eauto.
Qed.

Lemma classify_match term m :
  toLowerCase m = toLowerCase term → classify term m = Strong m.
Proof. intros Hl. unfold classify. by rewrite bool_decide_eq_true_2. Qed.

Lemma toLowerCase_empty s : toLowerCase s = "" → s = "".
Proof. by destruct s. Qed.

Lemma classify_before term u tail :
  term ≠ "" → no_occurrence_from term u tail → classify term u = Text u.
Proof.
  intros Hterm Hno. unfold classify. rewrite bool_decide_eq_false_2; [done|].
  intros Hl. destruct u as [|c u].
  - symmetry in Hl. by apply toLowerCase_empty in Hl.
  - apply (Hno "" (String c u)); [done..|]. by exists (String c u), tail.
Qed.

Lemma no_occurrence_nil term tail : no_occurrence_from term "" tail.
Proof. intros u1 u2 Hu Hne. destruct u1, u2; done. Qed.

Lemma no_occurrence_snoc term u c tail :
  no_occurrence_from term u (String c tail) →
  ¬ occurs_at_head term (String c tail) →
  no_occurrence_from term (u +:+ String c "") tail.
Proof.
  intros Hno Hc u1 u2 Hu Hne.
  revert u1 Hno Hu. induction u as [|d u IH]; intros u1 Hno Hu.
  - destruct u1 as [|e u1].
    + rewrite !append_nil_l in Hu. subst u2. exact Hc.
    + rewrite append_nil_l, append_cons in Hu. injection Hu as -> Hu.
      destruct u1; [by destruct u2 | done].
  - destruct u1 as [|e u1].
    + rewrite append_nil_l in Hu. subst u2. rewrite append_assoc.
      apply (Hno "" (String d u)); done.
    + rewrite !append_cons in Hu. injection Hu as <- Hu.
      apply (IH u1); [|done].
      intros v1 v2 Hv. apply (Hno (String d v1)). by rewrite Hv.
Qed.

Lemma split_loop_literal term :
  term ≠ "" →
  ∀ s cur, no_occurrence_from term cur s →
    SplitsOn term (cur +:+ s) (classify term <$> split_loop (literal_pattern term) cur s).
Proof.
  intros Hterm s.
  remember (String.length s) as n eqn:Hn.
  revert s Hn. induction (lt_wf n) as [n _ IH]. intros s Hn cur Hno.
  destruct s as [|c s'].
  - rewrite split_loop_nil, append_nil_r. simpl.
    rewrite (classify_before _ _ _ Hterm Hno). by apply splits_end.
  - rewrite split_loop_cons.
    destruct (exec _ (String c s')) as [[m rest]|] eqn:E.
    + pose proof (exec_length _ _ _ _ E) as Hlen.
      destruct (exec_literal_Some _ _ _ _ E) as [Hs Hl].
      assert (m ≠ "") as Hm.
      { intros ->. symmetry in Hl. by apply toLowerCase_empty in Hl. }
      replace (is_empty m && is_empty cur) with false by (by destruct m).
      rewrite Hs in Hno |- *.
      rewrite !fmap_cons, (classify_match _ _ Hl), (classify_before _ _ _ Hterm Hno).
      apply splits_match; [done..|].
      rewrite <- (append_nil_l rest) at 1.
      apply (IH (String.length rest)); [|done|apply no_occurrence_nil].
      subst n. rewrite Hlen. destruct m; [done|]. simpl. lia.
    + replace (cur +:+ String c s') with ((cur +:+ String c "") +:+ s')
        by (by rewrite append_assoc).
      apply (IH (String.length s')); [subst n; simpl; lia | done |].
      apply no_occurrence_snoc; [done|]. by apply exec_literal_None.
Qed.

Lemma split_loop_empty_pattern c s :
  classify "" <$> split_loop [] (String c "") s = chars_apart (String c s).
Proof.
  revert c. induction s as [|d s IH]; intros c.
  - by rewrite split_loop_nil.
  - rewrite split_loop_cons. cbn [exec is_empty andb].
    rewrite !fmap_cons. rewrite split_loop_cons. cbn [exec is_empty andb].
    rewrite append_nil_l, IH. reflexivity.
Qed.

Lemma highlightSearchTerm_eq text term :
  highlightSearchTerm text term
  = (λ pat, classify term <$> split pat text) <$> compile term.
Proof. unfold highlightSearchTerm. by destruct (compile term). Qed.

Lemma highlight_empty_term text :
  highlightSearchTerm text "" = Some (chars_apart text).
Proof.
  rewrite highlightSearchTerm_eq. simpl. f_equal.
  destruct text as [|c s]; [done|].
  unfold split. rewrite split_loop_cons. cbn [exec is_empty andb].
  apply split_loop_empty_pattern.
Qed.

Lemma highlight_literal text term :
  term ≠ "" → is_literal term = true →
  ∃ nodes, highlightSearchTerm text term = Some nodes ∧ SplitsOn term text nodes.
Proof.
  intros Hterm Hlit. rewrite highlightSearchTerm_eq.
  rewrite (compile_literal _ Hlit). simpl. eexists. split; [reflexivity|].
  destruct text as [|c s].
  - unfold split.
    destruct (exec (literal_pattern term) "") as [[m rest]|] eqn:E.
    + apply exec_literal_Some in E as [E Hl]. destruct m; [|done].
      symmetry in Hl. by apply toLowerCase_empty in Hl.
    + simpl. rewrite (classify_before term "" "" Hterm (no_occurrence_nil _ _)).
      apply splits_end, no_occurrence_nil.
  - unfold split. 
    apply (split_loop_literal term Hterm (String c s) ""), no_occurrence_nil.
Qed.


Lemma SplitsOn_rendered term s nodes : SplitsOn term s nodes → rendered nodes = s.
Proof.
  induction 1 as [u _ | u m rest nodes _ _ _ IH]; simpl.
  - apply append_nil_r.
  - by rewrite IH.
Qed.

Lemma chars_apart_rendered s : rendered (chars_apart s) = s.
Proof.
  destruct s as [|c s]; [done|]. revert c.
  induction s as [|d s IH]; intros c; [done|].
  change (chars_apart (String c (String d s)))
    with (Text (String c "") :: Strong "" :: chars_apart (String d s)).
  unfold rendered in *. rewrite !foldr_cons, IH. reflexivity.
Qed.

End HighlightFacts.

(** C3 (as amended).  Labels and terms are strings of code units below
    256.  With the empty search term the label is cut
    between every two code units and an empty emphasised piece sits at
    each cut, so that what is shown is the label with nothing visibly
    emphasised.  With a non-empty term free of pattern syntax characters
    the label is cut at the leftmost occurrences of the term up to case,
    one after the other; exactly the cut-out occurrences are emphasised
    and the pieces together are the label. *)
Theorem highlight_segments (text term : string) :
  (Highlight.highlightSearchTerm text "" = Some (Highlight.chars_apart text)
   ∧ Highlight.rendered (Highlight.chars_apart text) = text)
  ∧ (term ≠ "" → Highlight.is_literal term = true →
     ∃ nodes, Highlight.highlightSearchTerm text term = Some nodes
              ∧ Highlight.SplitsOn term text nodes
              ∧ Highlight.rendered nodes = text).
Proof.
  split; [split; [apply highlight_empty_term | apply chars_apart_rendered]|].
  intros Hterm Hlit.
  destruct (highlight_literal text term Hterm Hlit) as (nodes & Hh & Hs).
  exists nodes. split; [done|]. split; [done|]. by apply (SplitsOn_rendered term).
Qed.

Lemma highlight_segments_witness :
  ∃ nodes, Highlight.highlightSearchTerm "Rick Sanchez" "rick" = Some nodes
           ∧ Highlight.SplitsOn "rick" "Rick Sanchez" nodes
           ∧ Highlight.rendered nodes = "Rick Sanchez".
Proof.
  apply (proj2 (highlight_segments "Rick Sanchez" "rick")); [discriminate | reflexivity].
Defined.

(** With the empty search term the label comes back cut in pieces, with
    an emphasised (empty) piece between them, not as one plain piece. *)
Lemma highlight_empty_term_cuts :
  Highlight.highlightSearchTerm "ab" ""
  = Some [Highlight.Text "a"; Highlight.Strong ""; Highlight.Text "b"]
  ∧ bool_decide (Highlight.highlightSearchTerm "ab" "" = Some [Highlight.Text "ab"]) = false.
Proof. split; vm_compute; reflexivity. Qed.

(** The search term is read as a pattern: [a.] matches [aa] at the head
    of [aa.], so the occurrence of the term at offset 1 is not found, and
    the matched piece is not emphasised since it differs from the term;
    an unbalanced parenthesis is outside the modelled patterns. *)
Example highlight_term_is_a_pattern :
  Highlight.highlightSearchTerm "aa." "a."
  = Some [Highlight.Text ""; Highlight.Text "aa"; Highlight.Text "."]
  ∧ Highlight.highlightSearchTerm "Rick" "(" = None.
Proof. split; vm_compute; reflexivity. Qed.

(** Letters above 127 fold too: with the term U+00E9 (233) the label
    that starts with U+00C9 (201) has its first code unit emphasised.
    Code units above 127 are written by number. *)
Example highlight_latin1 :
  Highlight.highlightSearchTerm (String "201"%char "lodie") (String "233"%char "")
  = Some [Highlight.Text ""; Highlight.Strong (String "201"%char "");
          Highlight.Text "lodie"].
Proof. vm_compute. reflexivity. Qed.

Example highlight_rick :
  Highlight.highlightSearchTerm "Ricky rick" "RICK"
  = Some [Highlight.Text ""; Highlight.Strong "Rick"; Highlight.Text "y ";
          Highlight.Strong "rick"; Highlight.Text ""].
Proof. vm_compute. reflexivity. Qed.

(** * Further properties of the code *)

(** ** Selection operations *)

(** X1.  [handleRemoveOption] takes the label out of the selection and
    touches no other label; removing a label that is not selected, or
    removing twice, changes nothing more; two removals commute. *)
Theorem remove_option_effect (sel : list string) (label other : string) :
  (label ∉ Selection.handleRemoveOption label sel)
  ∧ (∀ x, x ≠ label → (x ∈ Selection.handleRemoveOption label sel ↔ x ∈ sel))
  ∧ (label ∉ sel → Selection.handleRemoveOption label sel = sel)
  ∧ Selection.handleRemoveOption label (Selection.handleRemoveOption label sel)
    = Selection.handleRemoveOption label sel
  ∧ Selection.handleRemoveOption label (Selection.handleRemoveOption other sel)
    = Selection.handleRemoveOption other (Selection.handleRemoveOption label sel).
Proof.
  unfold Selection.handleRemoveOption.
  split; [apply filter_self_absent|].
  split; [intros x Hx; rewrite list_elem_of_filter; tauto|].
  split; [apply filter_absent|].
  split; [apply filter_absent, filter_self_absent|].
  rewrite !list_filter_filter. apply list_filter_iff. tauto.
Qed.

(** The membership test after a toggle. *)
Lemma toggle_flips_membership_aux (sel : list string) (label : string) :
  (label ∈ Selection.handleOptionClick label sel ↔ label ∉ sel)
  ∧ (∀ x, x ≠ label → (x ∈ Selection.handleOptionClick label sel ↔ x ∈ sel)).
Proof.
  destruct (decide (label ∈ sel)) as [Hin|Hin].
  - rewrite (toggle_present _ _ Hin).
    split; [split; [intros H; by apply filter_self_absent in H | done]|].
    intros x Hx. rewrite list_elem_of_filter. tauto.
  - rewrite (toggle_absent _ _ Hin).
    split; [split; [done | intros _; apply elem_of_app; right; by left]|].
    intros x Hx. rewrite elem_of_app, list_elem_of_singleton. tauto.
Qed.

(** X2.  [handleOptionClick] flips the membership of the clicked label
    and of no other; on a duplicate-free selection the number of chips
    changes by exactly one. *)
Theorem toggle_flips_membership (sel : list string) (label : string) :
  (label ∈ Selection.handleOptionClick label sel ↔ label ∉ sel)
  ∧ (∀ x, x ≠ label → (x ∈ Selection.handleOptionClick label sel ↔ x ∈ sel))
  ∧ (label ∉ sel →
     length (Selection.handleOptionClick label sel) = S (length sel))
  ∧ (NoDup sel → label ∈ sel →
     S (length (Selection.handleOptionClick label sel)) = length sel).
Proof.
  destruct (decide (label ∈ sel)) as [Hin|Hin].
  - rewrite (toggle_present _ _ Hin).
    split; [split; [intros H; by apply filter_self_absent in H | done]|].
    split; [intros x Hx; rewrite list_elem_of_filter; tauto|].
    split; [done|]. intros Hnd _.
    pose proof (Permutation_length (filter_snoc_perm label sel Hnd Hin)) as Hlen.
    rewrite length_app in Hlen. simpl in Hlen. lia.
  - rewrite (toggle_absent _ _ Hin).
    split; [split; [done | intros _; apply elem_of_app; right; by left]|].
    split.
    { intros x Hx. rewrite elem_of_app, list_elem_of_singleton. tauto. }
    split; [intros _; rewrite length_app; simpl; lia | done].
Qed.

(** ** Keyboard handling *)

Section KeyboardMore.

Implicit Types (st : State) (event : KeyboardEvent).

Lemma keyDown_other event st :
  key event ≠ "ArrowDown" → key event ≠ "ArrowUp" → key event ≠ "Tab" →
  key event ≠ "Enter" → key event ≠ "Backspace" →
  handleKeyDown event st = st.
Proof.
  intros H1 H2 H3 H4 H5. unfold handleKeyDown.
  by rewrite !bool_decide_eq_false_2.
Qed.

(** The shape of the state after any key: only the selection and the
    highlighted index can differ. *)
Lemma keyDown_shape event st :
  handleKeyDown event st
  = mkState (selectedOptions (handleKeyDown event st)) (searchTerm st) (loading st)
            (error st) (results st) (highlightedIndex (handleKeyDown event st)).
Proof.
  destruct st as [sel term ld er rs hi]. unfold handleKeyDown. simpl.
  repeat (case_bool_decide; simpl; try reflexivity);
    repeat (case_match; simpl; try reflexivity).
Qed.

Lemma iter_ArrowDown_results k st :
  results (Nat.iter k (handleKeyDown ArrowDown) st) = results st.
Proof.
  induction k as [|k IH]; [done|].
  change (Nat.iter (S k) (handleKeyDown ArrowDown) st)
    with (handleKeyDown ArrowDown (Nat.iter k (handleKeyDown ArrowDown) st)).
  unfold ArrowDown at 1. rewrite keyDown_ArrowDown. exact IH.
Qed.

Lemma iter_ArrowUp_results k st :
  results (Nat.iter k (handleKeyDown ArrowUp) st) = results st.
Proof.
  induction k as [|k IH]; [done|].
  change (Nat.iter (S k) (handleKeyDown ArrowUp) st)
    with (handleKeyDown ArrowUp (Nat.iter k (handleKeyDown ArrowUp) st)).
  unfold ArrowUp at 1. rewrite keyDown_ArrowUp. exact IH.
Qed.

End KeyboardMore.

(** What a key event leaves alone. *)
Lemma keyDown_frame (event : KeyboardEvent) (st : State) :
  (searchTerm (handleKeyDown event st) = searchTerm st
   ∧ loading (handleKeyDown event st) = loading st
   ∧ error (handleKeyDown event st) = error st
   ∧ results (handleKeyDown event st) = results st)
  ∧ (key event ≠ "Enter" → key event ≠ "Backspace" →
     selectedOptions (handleKeyDown event st) = selectedOptions st)
  ∧ (key event ≠ "ArrowDown" → key event ≠ "ArrowUp" → key event ≠ "Tab" →
     highlightedIndex (handleKeyDown event st) = highlightedIndex st).
Proof.
  split.
  { rewrite (keyDown_shape event st). simpl. done. }
  split.
  - intros HE HB. unfold handleKeyDown.
    rewrite (bool_decide_eq_false_2 _ HE), (bool_decide_eq_false_2 _ HB).
    repeat case_bool_decide; simpl; try done.
    all: by destruct (shiftKey event).
  - intros HD HU HT. unfold handleKeyDown.
    rewrite (bool_decide_eq_false_2 _ HD), (bool_decide_eq_false_2 _ HU),
      (bool_decide_eq_false_2 _ HT).
    repeat case_bool_decide; simpl; try done.
    all: by destruct (js_index _ _).
Qed.

(** X3.  A key event never changes the search term, the loading flag,
    the error or the results; only Enter and Backspace can change the
    selection, and only ArrowDown, ArrowUp and Tab the highlighted
    index. *)
Theorem key_events_frame (event : KeyboardEvent) (st : State) :
  (searchTerm (handleKeyDown event st) = searchTerm st
   ∧ loading (handleKeyDown event st) = loading st
   ∧ error (handleKeyDown event st) = error st
   ∧ results (handleKeyDown event st) = results st)
  ∧ (key event ≠ "Enter" → key event ≠ "Backspace" →
     selectedOptions (handleKeyDown event st) = selectedOptions st)
  ∧ (key event ≠ "ArrowDown" → key event ≠ "ArrowUp" → key event ≠ "Tab" →
     highlightedIndex (handleKeyDown event st) = highlightedIndex st).
Proof. apply keyDown_frame. Qed.

Lemma key_events_frame_witness :
  selectedOptions (handleKeyDown ArrowDown shrunk_results) = selectedOptions shrunk_results.
Proof.
  apply (proj1 (proj2 (key_events_frame ArrowDown shrunk_results))); discriminate.
Defined.

(** X4.  A key that is none of ArrowDown, ArrowUp, Tab, Enter and
    Backspace leaves the whole state alone and its default action is not
    suppressed, so that typing reaches the input; the default action of
    Backspace is not suppressed either. *)
Theorem other_keys_pass_through (event : KeyboardEvent) (st : State) :
  key event ≠ "ArrowDown" → key event ≠ "ArrowUp" → key event ≠ "Tab" →
  key event ≠ "Enter" →
  defaultPrevented event = false
  ∧ (key event ≠ "Backspace" → handleKeyDown event st = st).
Proof.
  intros H1 H2 H3 H4. split.
  - unfold defaultPrevented. by rewrite !bool_decide_eq_false_2.
  - intros H5. by apply keyDown_other.
Qed.

Lemma other_keys_pass_through_witness :
  defaultPrevented (mkKey "a" false) = false
  ∧ (key (mkKey "a" false) ≠ "Backspace" →
     handleKeyDown (mkKey "a" false) shrunk_results = shrunk_results).
Proof.
  apply (other_keys_pass_through (mkKey "a" false) shrunk_results); discriminate.
Defined.

(** X5.  Enter on a highlighted row whose name is not selected appends
    that name to the selection, once; a second Enter takes it out again
    and the state is the one before the first. *)
Theorem enter_selects_then_deselects (st : State) (shift : bool) (r : Character) :
  js_index (results st) (highlightedIndex st) = Some r →
  name r ∉ selectedOptions st →
  selectedOptions (handleKeyDown (mkKey "Enter" shift) st) = selectedOptions st ++ [name r]
  ∧ handleKeyDown (mkKey "Enter" shift) (handleKeyDown (mkKey "Enter" shift) st) = st.
Proof.
  intros Hr Hout.
  assert (H1 : handleKeyDown (mkKey "Enter" shift) st
               = setSelectedOptions (selectedOptions st ++ [name r]) st).
  { rewrite keyDown_Enter, Hr. unfold handleOptionClick.
    by rewrite (toggle_absent _ _ Hout). }
  split; [by rewrite H1|].
  rewrite H1, keyDown_Enter. simpl. rewrite Hr. unfold handleOptionClick. simpl.
  rewrite toggle_present by (apply elem_of_app; right; by left).
  rewrite filter_app, filter_singleton_False, app_nil_r by (try exact []; tauto).
  rewrite (filter_absent _ _ Hout). by destruct st.
Qed.

Lemma enter_selects_then_deselects_witness :
  selectedOptions (handleKeyDown Enter (mkState ["Morty"] "ri" false None [someone 1] 0))
  = ["Morty"; "Rick"].
Proof.
  apply (enter_selects_then_deselects (mkState ["Morty"] "ri" false None [someone 1] 0)
           false (someone 1)).
  - reflexivity.
  - compute_done.
Defined.

(** X6.  With an empty search term, Backspace undoes an Enter that
    selected a name: the state is back to the one before. *)
Theorem backspace_undoes_enter (st : State) (shift shift' : bool) (r : Character) :
  js_index (results st) (highlightedIndex st) = Some r →
  name r ∉ selectedOptions st →
  searchTerm st = "" →
  handleKeyDown (mkKey "Backspace" shift') (handleKeyDown (mkKey "Enter" shift) st) = st.
Proof.
  intros Hr Hout Hterm.
  rewrite keyDown_Enter, Hr. unfold handleOptionClick.
  rewrite (toggle_absent _ _ Hout), keyDown_Backspace. simpl.
  rewrite js_index_last, (bool_decide_eq_true_2 _ Hterm).
  rewrite bool_decide_eq_true_2 by (unfold js_length; rewrite length_app; simpl; lia).
  simpl. unfold handleRemoveOption, Selection.handleRemoveOption. simpl.
  rewrite filter_app, filter_singleton_False, app_nil_r by (try exact []; tauto).
  rewrite (filter_absent _ _ Hout). by destruct st.
Qed.

Lemma backspace_undoes_enter_witness :
  handleKeyDown Backspace (handleKeyDown Enter (mkState [] "" false None [someone 1] 0))
  = mkState [] "" false None [someone 1] 0.
Proof.
  apply (backspace_undoes_enter (mkState [] "" false None [someone 1] 0) false false
           (someone 1)).
  - reflexivity.
  - apply not_elem_of_nil.
  - reflexivity.
Defined.

(** X7.  Pressing ArrowDown [k] times, [k] at least one, puts the index
    at [min (i + k) (results.length - 1)] from any index [i]; pressing
    ArrowUp [k] times puts it at [max (i - k) 0].  So holding a key ends
    on the last, respectively first, row and stays there. *)
Theorem repeated_arrows (st : State) (k : nat) :
  highlightedIndex (Nat.iter (S k) (handleKeyDown ArrowDown) st)
  = Z.min (highlightedIndex st + Z.of_nat (S k)) (js_length (results st) - 1)
  ∧ highlightedIndex (Nat.iter (S k) (handleKeyDown ArrowUp) st)
    = Z.max (highlightedIndex st - Z.of_nat (S k)) 0.
Proof.
  split.
  - induction k as [|k IH].
    + simpl Nat.iter. unfold ArrowDown. rewrite keyDown_ArrowDown. simpl. lia.
    + change (Nat.iter (S (S k)) (handleKeyDown ArrowDown) st)
        with (handleKeyDown ArrowDown (Nat.iter (S k) (handleKeyDown ArrowDown) st)).
      unfold ArrowDown at 1. rewrite keyDown_ArrowDown.
      cbn [highlightedIndex setHighlightedIndex].
      rewrite IH, iter_ArrowDown_results. lia.
  - induction k as [|k IH].
    + simpl Nat.iter. unfold ArrowUp. rewrite keyDown_ArrowUp. simpl. lia.
    + change (Nat.iter (S (S k)) (handleKeyDown ArrowUp) st)
        with (handleKeyDown ArrowUp (Nat.iter (S k) (handleKeyDown ArrowUp) st)).
      unfold ArrowUp at 1. rewrite keyDown_ArrowUp.
      cbn [highlightedIndex setHighlightedIndex].
      rewrite IH. lia.
Qed.

(** X8.  With no result listed, ArrowDown from a non-negative index
    puts the index at -1, where no result is addressed; ArrowUp brings it
    back to 0, while Tab and Shift+Tab would have left index 0 alone. *)
Theorem arrow_down_without_results (st : State) (shift : bool) :
  results st = [] → 0 ≤ highlightedIndex st →
  highlightedIndex (handleKeyDown (mkKey "ArrowDown" shift) st) = -1
  ∧ js_index (results (handleKeyDown (mkKey "ArrowDown" shift) st))
             (highlightedIndex (handleKeyDown (mkKey "ArrowDown" shift) st)) = None
  ∧ highlightedIndex
      (handleKeyDown (mkKey "ArrowUp" shift) (handleKeyDown (mkKey "ArrowDown" shift) st)) = 0
  ∧ (highlightedIndex st = 0 →
     handleKeyDown Tab st = st ∧ handleKeyDown ShiftTab st = st).
Proof.
  intros Hres Hi. rewrite keyDown_ArrowDown, keyDown_ArrowUp. simpl.
  rewrite Hres. unfold js_length. simpl.
  split; [lia|]. split.
  - unfold js_index. rewrite bool_decide_eq_true_2; [done | lia].
  - split; [lia|]. intros H0. rewrite keyDown_Tab, keyDown_ShiftTab, H0, Hres.
    split; reflexivity.
Qed.

Lemma arrow_down_without_results_witness :
  highlightedIndex (handleKeyDown ArrowDown initialState) = -1.
Proof.
  apply (arrow_down_without_results initialState false); [reflexivity | simpl; lia].
Defined.

(** ** The component along its events *)

Section RunFacts.

Implicit Types (st : State) (e : Event) (es : list Event).

Lemma run_snoc es e st : run (es ++ [e]) st = step e (run es st).
Proof. unfold run. by rewrite foldl_app. Qed.

Lemma step_keeps_error_excludes_results e st :
  error_excludes_results st → error_excludes_results (step e st).
Proof.
  unfold error_excludes_results. intros Hinv.
  destruct e as [event|value|index|option| |term r]; simpl.
  - destruct (keyDown_frame event st) as ((_ & _ & -> & ->) & _). exact Hinv.
  - exact Hinv.
  - by destruct (_ !! _).
  - exact Hinv.
  - exact Hinv.
  - destruct r as [data|err]; [by left | by right].
Qed.

End RunFacts.

(** X9.  Every event keeps the highlighted index in range, except a
    fulfilled answer to a non-empty term whose list is non-empty and too
    short for the current index (or arrives while the index is negative). *)
Theorem events_keep_index_in_range (e : Event) (st : State) :
  index_in_range st →
  (∀ term data, e = SearchSettled term (Fulfilled data) →
     term = "" ∨ data = [] ∨ 0 ≤ highlightedIndex st < js_length data) →
  index_in_range (step e st).
Proof.
  intros Hin Hok. destruct e as [event|value|index|option| |term r]; simpl.
  - destruct (decide (key event = "ArrowDown")) as [HD|HD];
      [apply navigation_keeps_index_in_range; auto|].
    destruct (decide (key event = "ArrowUp")) as [HU|HU];
      [apply navigation_keeps_index_in_range; auto|].
    destruct (decide (key event = "Tab")) as [HT|HT];
      [apply navigation_keeps_index_in_range; auto|].
    destruct (keyDown_frame event st) as ((_ & _ & _ & Hres) & _ & Hidx).
    unfold index_in_range. rewrite Hres, (Hidx HD HU HT). exact Hin.
  - exact Hin.
  - by destruct (_ !! _).
  - exact Hin.
  - exact Hin.
  - destruct r as [data|err].
    + destruct (Hok term data eq_refl) as [-> | [-> | Hi]].
      * unfold index_in_range. simpl. done.
      * unfold index_in_range, Search.settle, Search.try_resume.
        case_bool_decide; simpl; done.
      * unfold index_in_range, Search.settle, Search.try_resume.
        case_bool_decide; simpl; [lia | done].
    + unfold index_in_range, Search.settle, Search.catch_block. simpl. done.
Qed.

Lemma events_keep_index_in_range_witness :
  index_in_range
    (step (SearchSettled "ri" (Fulfilled [someone 1; someone 2])) initialState).
Proof.
  apply (events_keep_index_in_range
           (SearchSettled "ri" (Fulfilled [someone 1; someone 2])) initialState).
  - intros Hne. by destruct Hne.
  - intros term data [= <- <-]. right. right. vm_compute. split; [discriminate | reflexivity].
Defined.

(** X10.  Along every sequence of events from the first render, an
    error message is never shown together with results: the error is
    [null] or the results list is empty. *)
Theorem error_and_results_exclusive (es : list Event) :
  error (run es initialState) = None ∨ results (run es initialState) = [].
Proof.
  induction es as [|e es IH] using rev_ind; [by left|].
  rewrite run_snoc. by apply step_keeps_error_excludes_results.
Qed.

(** X11.  Along every sequence of events from the first render the
    selection holds no label twice. *)
Theorem selection_never_repeats (es : list Event) :
  NoDup (selectedOptions (run es initialState)).
Proof. apply run_keeps_NoDup. simpl. apply NoDup_nil_2. Qed.

(** X12.  Only the two search events write the loading flag, the error
    and the results: key presses, typing, row clicks and chip removals
    leave the three as they are. *)
Theorem user_events_keep_query_state (e : Event) (st : State) :
  e ≠ SearchFired → (∀ term r, e ≠ SearchSettled term r) →
  loading (step e st) = loading st
  ∧ error (step e st) = error st
  ∧ results (step e st) = results st.
Proof.
  intros Hf Hs. destruct e as [event|value|index|option| |term r]; simpl.
  - destruct (keyDown_frame event st) as ((_ & -> & -> & ->) & _). done.
  - done.
  - by destruct (_ !! _).
  - done.
  - done.
  - by destruct (Hs term r).
Qed.

Lemma user_events_keep_query_state_witness :
  results (step (KeyDown Enter) shrunk_results) = results shrunk_results.
Proof.
  apply (user_events_keep_query_state (KeyDown Enter) shrunk_results); discriminate.
Defined.

(** The success path.  A fulfilled request for a non-empty term stores the list it
    received, whatever the search term is by then, clears the error and
    leaves the highlighted index where it was; for the empty term it
    stores the empty list, whatever it received, and puts the index at 0.
    The selection and the search term are not touched. *)
Theorem fulfilled_search (term : string) (data : list Character) (st : State) :
  (term ≠ "" →
     results (Search.settle term (Fulfilled data) st) = data
     ∧ highlightedIndex (Search.settle term (Fulfilled data) st) = highlightedIndex st)
  ∧ (term = "" →
     results (Search.settle term (Fulfilled data) st) = []
     ∧ highlightedIndex (Search.settle term (Fulfilled data) st) = 0)
  ∧ error (Search.settle term (Fulfilled data) st) = None
  ∧ loading (Search.settle term (Fulfilled data) st) = false
  ∧ selectedOptions (Search.settle term (Fulfilled data) st) = selectedOptions st
  ∧ searchTerm (Search.settle term (Fulfilled data) st) = searchTerm st.
Proof.
  unfold Search.settle, Search.try_resume.
  case_bool_decide as Hterm; simpl; repeat split; done.
Qed.

Lemma fulfilled_search_witness :
  results (Search.settle "ri" (Fulfilled [someone 1]) shrunk_results) = [someone 1].
Proof.
  apply (proj1 (fulfilled_search "ri" [someone 1] shrunk_results)). discriminate.
Defined.

(** X13.  Answers are applied in the order they arrive: after two
    settled requests the loading flag, the error and the results are
    those the second one alone would give, whichever request was sent
    first and whatever the first answer was. *)
Theorem last_answer_wins (term1 term2 : string) (r1 r2 : Settled) (st : State) :
  loading (Search.settle term2 r2 (Search.settle term1 r1 st))
  = loading (Search.settle term2 r2 st)
  ∧ error (Search.settle term2 r2 (Search.settle term1 r1 st))
    = error (Search.settle term2 r2 st)
  ∧ results (Search.settle term2 r2 (Search.settle term1 r1 st))
    = results (Search.settle term2 r2 st)
  ∧ selectedOptions (Search.settle term2 r2 (Search.settle term1 r1 st))
    = selectedOptions st
  ∧ searchTerm (Search.settle term2 r2 (Search.settle term1 r1 st))
    = searchTerm st.
Proof.
  destruct (settle_keeps_selection term2 r2 (Search.settle term1 r1 st)) as [-> ->].
  destruct (settle_keeps_selection term1 r1 st) as [-> ->].
  destruct r2 as [data2|[[status2|]]];
    unfold Search.settle, Search.try_resume, Search.catch_block; simpl;
    repeat case_bool_decide; simpl; done.
Qed.

(** ** Rendered rows *)

Section RenderFacts.

Import Render.

Lemma filter_seq_eq (i : Z) (n start : nat) :
  filter (λ index, bool_decide (Z.of_nat index = i) = true) (seq start n)
  = if bool_decide (Z.of_nat start ≤ i < Z.of_nat (start + n))
    then [Z.to_nat i] else [].
Proof.
  revert start. induction n as [|n IH]; intros start.
  - simpl. rewrite bool_decide_eq_false_2 by lia. reflexivity.
  - simpl seq. rewrite filter_cons, IH.
    destruct (decide (bool_decide (Z.of_nat start = i) = true)) as [Heq|Hne].
    + apply bool_decide_eq_true_1 in Heq.
      rewrite (bool_decide_eq_false_2 (Z.of_nat (S start) ≤ i < _)) by lia.
      rewrite bool_decide_eq_true_2 by lia. f_equal. lia.
    + apply not_true_is_false, bool_decide_eq_false_1 in Hne.
      repeat case_bool_decide; try reflexivity; lia.
Qed.

End RenderFacts.

(** X14.  Exactly one row is rendered highlighted, the one at the
    highlighted index, when that index addresses a result; no row is
    highlighted when it does not. *)
Theorem one_row_highlighted (st : State) :
  (0 ≤ highlightedIndex st < js_length (results st) →
     Render.highlightedRows st = [Z.to_nat (highlightedIndex st)])
  ∧ (highlightedIndex st < 0 ∨ js_length (results st) ≤ highlightedIndex st →
     Render.highlightedRows st = []).
Proof.
  unfold Render.highlightedRows, Render.rowHighlighted, js_length.
  rewrite filter_seq_eq. split; intros Hi.
  - rewrite bool_decide_eq_true_2; [done | lia].
  - rewrite bool_decide_eq_false_2; [done | lia].
Qed.

Lemma one_row_highlighted_witness :
  Render.highlightedRows shrunk_results = [].
Proof.
  apply (proj2 (one_row_highlighted shrunk_results)). right. vm_compute. discriminate.
Defined.

(** X15.  A click on a listed row flips the checkbox of every row that
    carries the clicked row's name and of no other row. *)
Theorem click_flips_checkboxes (st : State) (index : nat) (r other : Character) :
  results st !! index = Some r →
  (name other = name r →
     Render.rowChecked (step (RowClick index) st) other
     = negb (Render.rowChecked st other))
  ∧ (name other ≠ name r →
     Render.rowChecked (step (RowClick index) st) other = Render.rowChecked st other).
Proof.
  intros Hr. unfold Render.rowChecked. simpl. rewrite Hr. simpl.
  destruct (toggle_flips_membership_aux (selectedOptions st) (name r)) as [Hflip Hkeep].
  split.
  - intros ->. destruct (decide (name r ∈ selectedOptions st)) as [Hin|Hout].
    + rewrite (bool_decide_eq_true_2 _ Hin). simpl.
      apply bool_decide_eq_false_2. rewrite Hflip. tauto.
    + rewrite (bool_decide_eq_false_2 _ Hout). simpl.
      apply bool_decide_eq_true_2. by apply Hflip.
  - intros Hne. apply bool_decide_ext. by apply Hkeep.
Qed.

Lemma click_flips_checkboxes_witness :
  Render.rowChecked (step (RowClick 0) shrunk_results) (someone 7) = true.
Proof.
  apply (proj1 (click_flips_checkboxes shrunk_results 0 (someone 1) (someone 7) eq_refl)).
  reflexivity.
Defined.

(** ** Debounce: bursts and the order of callbacks *)

Section DebounceTraceFacts.

Context {Args : Type}.
Variable delay : nat.

Import Debounce DebounceTrace.

Implicit Types (env : @Env Args) (a : Args) (hist : list Args).

Lemma tick_keeps_single_pending d env :
  single_pending env → single_pending (tick d env).
Proof. intros Hinv. exact Hinv. Qed.

Lemma call_keeps_single_pending a env :
  single_pending env → unmounted env = false →
  single_pending (debouncedCallback delay a env).
Proof.
  intros Hinv Hm. destruct (call_schedules_one delay env a Hinv) as (Ht & Href & _ & Hu).
  right. eexists. split; [exact Ht|]. split; [exact Href|]. by rewrite Hu.
Qed.

Lemma clear_current_clock env : clock (clear_current env) = clock env.
Proof. unfold clear_current. by destruct (timeoutRef env). Qed.

Lemma clear_current_calls env : calls (clear_current env) = calls env.
Proof. unfold clear_current. by destruct (timeoutRef env). Qed.

Lemma call_keeps_clock a env :
  clock (debouncedCallback delay a env) = clock env
  ∧ nextHandle (debouncedCallback delay a env) = Pos.succ (nextHandle env).
Proof.
  unfold debouncedCallback, setTimeout, set_timeoutRef, clear_current. simpl.
  destruct (timeoutRef env); done.
Qed.

Lemma burst_snoc (l : list (nat * Args)) p env :
  burst delay (l ++ [p]) env
  = debouncedCallback delay p.2 (elapse p.1 (burst delay l env)).
Proof. unfold burst. by rewrite foldl_app. Qed.

Lemma elapse_nothing_pending d env : timers env = [] → elapse d env = tick d env.
Proof. intros Hnil. unfold elapse, run_due. simpl. by rewrite Hnil. Qed.

Lemma elapse_not_due d env t :
  timers env = [t] → (clock env + d < due t)%nat → elapse d env = tick d env.
Proof.
  intros Ht Hd. unfold elapse, run_due. simpl. rewrite Ht. simpl.
  by rewrite bool_decide_eq_false_2 by lia.
Qed.

Lemma elapse_due d env t :
  timers env = [t] → (due t ≤ clock env + d)%nat → elapse d env = fire t (tick d env).
Proof.
  intros Ht Hd. unfold elapse, run_due. simpl. rewrite Ht. simpl.
  by rewrite bool_decide_eq_true_2 by lia.
Qed.

Lemma Forall_tail_snoc {A} (P : A → Prop) (l : list A) (p : A) :
  Forall P (tail (l ++ [p])) → Forall P (tail l) ∧ (l ≠ [] → P p).
Proof.
  destruct l as [|x l]; simpl.
  - intros _. split; [constructor | done].
  - intros [Hl Hp]%Forall_app. split; [done|]. intros _. by inversion Hp.
Qed.

(** While the calls follow one another by less than [delay], the timer
    of the latest call is pending and none has run. *)
Lemma burst_facts (l : list (nat * Args)) env :
  single_pending env → unmounted env = false → timers env = [] →
  Forall (λ p, (p.1 < delay)%nat) (tail l) →
  single_pending (burst delay l env)
  ∧ unmounted (burst delay l env) = false
  ∧ calls (burst delay l env) = calls env
  ∧ clock (burst delay l env) = (clock env + sum_list l.*1)%nat
  ∧ (∀ d, (l ≠ [] → d < delay)%nat →
       elapse d (burst delay l env) = tick d (burst delay l env)).
Proof.
  intros Hinv Hm Hnil. induction l as [|p l IH] using rev_ind; intros Hgaps.
  - simpl. split; [done|]. split; [done|]. split; [done|]. split; [lia|].
    intros d _. by apply elapse_nothing_pending.
  - apply Forall_tail_snoc in Hgaps as [Hgaps Hp].
    destruct (IH Hgaps) as (Hinv' & Hm' & Hcalls & Hclock & Hquiet).
    rewrite burst_snoc, (Hquiet p.1 Hp).
    destruct (call_schedules_one delay (tick p.1 (burst delay l env)) p.2 Hinv')
      as (Ht & _ & Hc & Hu).
    destruct (call_keeps_clock p.2 (tick p.1 (burst delay l env))) as [Hck _].
    split; [by apply call_keeps_single_pending|].
    split; [by rewrite Hu|]. split; [by rewrite Hc|].
    split.
    + rewrite Hck. simpl. rewrite Hclock, fmap_app, sum_list_with_app. simpl. lia.
    + intros d Hd. eapply elapse_not_due; [exact Ht|]. rewrite Hck. simpl.
      assert (d < delay)%nat by (apply Hd; by destruct l). lia.
Qed.

Lemma reached_reachable hist env : reached delay hist env → reachable delay env.
Proof.
  unfold reachable. induction 1 as [|hist env a _ IH Hm|hist env t _ IH Ht Hd
                                    |hist env d _ IH|hist env _ IH Hm].
  - apply rtc_refl.
  - eapply rtc_r; [exact IH|]. by apply step_call.
  - eapply rtc_r; [exact IH|]. by apply step_fire.
  - eapply rtc_r; [exact IH|]. apply step_tick.
  - eapply rtc_r; [exact IH|]. by apply step_unmount.
Qed.

Lemma reachable_reached env : reachable delay env → ∃ hist, reached delay hist env.
Proof.
  unfold reachable. revert env. apply rtc_ind_r.
  - exists []. apply reached_mount.
  - intros env1 env2 _ Hstep [hist IH].
    destruct Hstep as [a env Hm | t env Ht Hdue | d env | env Hm].
    + exists (a :: hist). by apply reached_call.
    + exists hist. by apply reached_fire.
    + exists hist. by apply reached_tick.
    + exists hist. by apply reached_unmount.
Qed.

Lemma reached_log_follows hist env : reached delay hist env → log_follows hist env.
Proof.
  induction 1 as [|hist env a Hr IH Hm|hist env t Hr IH Ht Hd
                  |hist env d Hr IH|hist env Hr IH Hm].
  - left. split; [done|]. simpl. constructor.
  - pose proof (reachable_single_pending delay env (reached_reachable _ _ Hr)) as Hinv.
    destruct (call_schedules_one delay env a Hinv) as (Ht & _ & Hc & _).
    right. eexists _, hist. split; [exact Ht|]. split; [done|]. rewrite Hc.
    destruct IH as [[_ Hs] | (t & hist' & _ & -> & Hs)]; [done|].
    by apply sublist_cons.
  - left. destruct IH as [[Hnil _] | (t' & hist' & Ht' & -> & Hs)].
    + rewrite Hnil in Ht. by apply elem_of_nil in Ht.
    + rewrite Ht' in Ht. apply list_elem_of_singleton in Ht as ->. simpl.
      rewrite Ht'. rewrite filter_cons_False, filter_nil by tauto.
      split; [done|]. by apply sublist_skip.
  - exact IH.
  - pose proof (reachable_single_pending delay env (reached_reachable _ _ Hr)) as Hinv.
    destruct (cleanup_cancels env Hinv) as (Ht & _ & Hc).
    left. split; [done|]. rewrite Hc.
    destruct IH as [[_ Hs] | (t & hist' & _ & -> & Hs)]; [done|].
    by apply sublist_cons.
Qed.

End DebounceTraceFacts.

(** X16.  A burst of calls of the wrapped function, started on a
    mounted hook with nothing pending and with less than [delay] between
    one call and the next, leaves one timer pending: it carries the
    arguments of the last call and is due [delay] after that call.  The
    callback has not been invoked during the burst and is not invoked
    while less than [delay] has passed since the last call; once [delay]
    has passed it has been invoked once, with the last arguments, and
    nothing is pending. *)
Theorem debounce_burst {Args : Type} (delay : nat) (env : @Debounce.Env Args)
    (l : list (nat * Args)) (gap : nat) (a : Args) :
  Debounce.reachable delay env → Debounce.unmounted env = false →
  Debounce.timers env = [] →
  Forall (λ p, (p.1 < delay)%nat) (tail (l ++ [(gap, a)])) →
  Debounce.timers (DebounceTrace.burst delay (l ++ [(gap, a)]) env)
  = [Debounce.mkTimer
       (Debounce.nextHandle (DebounceTrace.burst delay l env))
       (Debounce.clock env + sum_list l.*1 + gap + delay)%nat a]
  ∧ Debounce.calls (DebounceTrace.burst delay (l ++ [(gap, a)]) env) = Debounce.calls env
  ∧ (∀ d, (d < delay)%nat →
       Debounce.calls
         (DebounceTrace.elapse d (DebounceTrace.burst delay (l ++ [(gap, a)]) env))
       = Debounce.calls env
       ∧ Debounce.timers
           (DebounceTrace.elapse d (DebounceTrace.burst delay (l ++ [(gap, a)]) env))
         = Debounce.timers (DebounceTrace.burst delay (l ++ [(gap, a)]) env))
  ∧ (∀ d, (delay ≤ d)%nat →
       Debounce.calls
         (DebounceTrace.elapse d (DebounceTrace.burst delay (l ++ [(gap, a)]) env))
       = a :: Debounce.calls env
       ∧ Debounce.timers
           (DebounceTrace.elapse d (DebounceTrace.burst delay (l ++ [(gap, a)]) env))
         = []).
Proof.
  intros Hr Hm Hnil Hgaps.
  pose proof (reachable_single_pending delay env Hr) as Hinv.
  destruct (burst_facts delay (l ++ [(gap, a)]) env Hinv Hm Hnil Hgaps)
    as (_ & _ & Hcalls1 & Hclock1 & Hquiet1).
  apply Forall_tail_snoc in Hgaps as [Hgaps Hgap].
  destruct (burst_facts delay l env Hinv Hm Hnil Hgaps)
    as (Hinv' & Hm' & Hcalls & Hclock & Hquiet).
  pose proof (burst_snoc delay l (gap, a) env) as Hsnoc. cbn [fst snd] in Hsnoc.
  rewrite (Hquiet gap Hgap) in Hsnoc.
  destruct (call_schedules_one delay
              (Debounce.tick gap (DebounceTrace.burst delay l env)) a Hinv')
    as (Ht & _ & _ & _).
  rewrite <- Hsnoc in Ht.
  cbn [Debounce.tick Debounce.clock Debounce.nextHandle] in Ht. rewrite Hclock in Ht.
  rewrite fmap_app, sum_list_with_app in Hclock1. simpl in Hclock1.
  set (B := DebounceTrace.burst delay (l ++ [(gap, a)]) env) in *.
  split; [exact Ht|]. split; [exact Hcalls1|]. split.
  - intros d Hd. rewrite (Hquiet1 d) by (intros _; exact Hd). by rewrite <- Hcalls1.
  - intros d Hd. rewrite (elapse_due d B _ Ht) by (simpl; lia).
    cbn [Debounce.fire Debounce.tick Debounce.calls Debounce.timers Debounce.args
         Debounce.handle].
    split; [by rewrite Hcalls1|].
    rewrite Ht. by rewrite filter_cons_False, filter_nil by tauto.
Qed.

Lemma debounce_burst_witness :
  Debounce.timers
    (DebounceTrace.burst 500 ([(0%nat, "r"); (120%nat, "ri")] ++ [(90%nat, "ric")])
                         Debounce.mount)
  = [Debounce.mkTimer 3%positive 710%nat "ric"].
Proof.
  apply (debounce_burst 500 Debounce.mount [(0%nat, "r"); (120%nat, "ri")] 90 "ric").
  - apply rtc_refl.
  - reflexivity.
  - reflexivity.
  - simpl. repeat constructor; simpl; lia.
Defined.

(** Calls that are [delay] or more apart do not collapse: the first
    timer has run before the second call. *)
Example burst_with_long_gap :
  Debounce.calls (DebounceTrace.burst 500 [(0%nat, "r"); (600%nat, "ri")] Debounce.mount)
  = ["r"]
  ∧ Debounce.timers (DebounceTrace.burst 500 [(0%nat, "r"); (600%nat, "ri")] Debounce.mount)
    = [Debounce.mkTimer 2%positive 1100%nat "ri"].
Proof. split; vm_compute; reflexivity. Qed.

(** X17.  The callback is only ever invoked with arguments the wrapped
    function was called with, in the order of those calls and at most
    once per call: the log of invocations is a subsequence of the history
    of calls.  A pending timer carries the arguments of the latest call,
    and that call has not been served yet. *)
Theorem callbacks_follow_calls {Args : Type} (delay : nat)
    (hist : list Args) (env : @Debounce.Env Args) :
  DebounceTrace.reached delay hist env →
  Debounce.reachable delay env
  ∧ Debounce.calls env `sublist_of` hist
  ∧ (length (Debounce.calls env) + length (Debounce.timers env) ≤ length hist)%nat
  ∧ (∀ t, t ∈ Debounce.timers env →
       ∃ hist', hist = Debounce.args t :: hist'
                ∧ Debounce.calls env `sublist_of` hist').
Proof.
  intros Hr. split; [by apply (reached_reachable delay hist)|].
  destruct (reached_log_follows delay hist env Hr)
    as [[Hnil Hs] | (t & hist' & Ht & -> & Hs)].
  - rewrite Hnil. split; [done|]. split.
    + apply sublist_length in Hs. simpl. lia.
    + intros t Ht. by apply elem_of_nil in Ht.
  - rewrite Ht. split; [by apply sublist_cons|]. split.
    + apply sublist_length in Hs. simpl. lia.
    + intros t' Ht'. apply list_elem_of_singleton in Ht' as ->. eauto.
Qed.

Lemma callbacks_follow_calls_witness :
  Debounce.calls
    (Debounce.debouncedCallback 500 "ri" (Debounce.debouncedCallback 500 "r" Debounce.mount))
  `sublist_of` ["ri"; "r"].
Proof.
  apply (callbacks_follow_calls 500 ["ri"; "r"]
           (Debounce.debouncedCallback 500 "ri"
              (Debounce.debouncedCallback 500 "r" Debounce.mount))).
  apply DebounceTrace.reached_call; [|reflexivity].
  apply DebounceTrace.reached_call; [|reflexivity].
  apply DebounceTrace.reached_mount.
Defined.

(** At most one timer under the invariant. *)
Lemma debounce_single_timer_aux {Args : Type} (delay : nat) (env : @Debounce.Env Args) :
  Debounce.reachable delay env → (length (Debounce.timers env) ≤ 1)%nat.
Proof.
  intros Hr. destruct (reachable_single_pending delay env Hr) as [-> | (t & -> & _)];
    simpl; lia.
Qed.

(** ** The component with its debounced search *)

Section SystemFacts.

Import Debounce System.

Implicit Types (sys : System).

Lemma sys_step_hook sys sys' :
  sys_step sys sys' → hook sys' = hook sys ∨ hook_step delay (hook sys) (hook sys').
Proof.
  intros Hstep.
  destruct Hstep as [value sys Hm|event sys|index sys|option sys|t sys Ht Hd
                     |pre term post r sys Hin|d sys|sys Hm]; simpl.
  - right. by apply step_call.
  - by left.
  - by left.
  - by left.
  - right. by apply step_fire.
  - by left.
  - right. apply step_tick.
  - right. by apply step_unmount.
Qed.

Lemma sys_reachable_hook sys : sys_reachable sys → reachable delay (hook sys).
Proof.
  unfold sys_reachable, reachable. revert sys. apply rtc_ind_r; [apply rtc_refl|].
  intros sys1 sys2 _ Hstep IH.
  destruct (sys_step_hook _ _ Hstep) as [-> | Hh]; [done|]. by eapply rtc_r.
Qed.

Lemma sys_step_ui sys sys' :
  sys_step sys sys' → ui sys' = ui sys ∨ ∃ e, ui sys' = step e (ui sys).
Proof.
  intros Hstep.
  destruct Hstep as [value sys Hm|event sys|index sys|option sys|t sys Ht Hd
                     |pre term post r sys Hin|d sys|sys Hm]; simpl.
  - right. by exists (InputChange value).
  - right. by exists (KeyDown event).
  - right. by exists (RowClick index).
  - right. by exists (ChipRemove option).
  - right. by exists SearchFired.
  - right. by exists (SearchSettled term r).
  - by left.
  - by left.
Qed.

Lemma sys_reachable_run sys : sys_reachable sys → ∃ es, ui sys = run es initialState.
Proof.
  unfold sys_reachable. revert sys. apply rtc_ind_r; [by exists []|].
  intros sys1 sys2 _ Hstep [es IH].
  destruct (sys_step_ui _ _ Hstep) as [-> | [e ->]]; [by exists es|].
  exists (es ++ [e]). by rewrite run_snoc, IH.
Qed.

Lemma sys_step_consistent sys sys' :
  single_pending (hook sys) → sys_step sys sys' →
  sys_consistent sys → sys_consistent sys'.
Proof.
  intros Hsp Hstep [Hargs Hload]. unfold sys_consistent.
  destruct Hstep as [value sys Hm|event sys|index sys|option sys|t sys Ht Hd
                     |pre term post r sys Hin|d sys|sys Hm]; cbn [ui hook inflight].
  - split; [|exact Hload].
    destruct (call_schedules_one delay (hook sys) value Hsp) as (Ht & _).
    rewrite Ht. intros t Hin. by apply list_elem_of_singleton in Hin as ->.
  - destruct (keyDown_frame event (ui sys)) as ((-> & -> & _) & _). done.
  - simpl. destruct (results (ui sys) !! index); done.
  - done.
  - split; [|done]. intros t' Ht'.
    apply list_elem_of_filter in Ht' as [_ Ht']. by apply Hargs.
  - destruct (settle_keeps_selection term r (ui sys)) as [_ ->]. split; [exact Hargs|].
    intros Hl. by destruct r.
  - done.
  - split; [|exact Hload]. intros t Ht.
    destruct (cleanup_cancels (hook sys) Hsp) as (Hnil & _).
    rewrite Hnil in Ht. by apply elem_of_nil in Ht.
Qed.

End SystemFacts.

(** X18.  In every state the component and its hook can reach, a
    pending search is for the text currently in the input box, so the
    request that starts when the timer fires is for the term shown then;
    at most one search is pending; the loading flag is up only while a
    request is in flight; and the component state is the result of a
    sequence of its events. *)
Theorem pending_search_is_current (sys : System.System) :
  System.sys_reachable sys →
  (∀ t, t ∈ Debounce.timers (System.hook sys) →
        Debounce.args t = searchTerm (System.ui sys))
  ∧ (length (Debounce.timers (System.hook sys)) ≤ 1)%nat
  ∧ (loading (System.ui sys) = true → System.inflight sys ≠ [])
  ∧ (∃ es, System.ui sys = run es initialState).
Proof.
  intros Hr.
  assert (Hc : System.sys_consistent sys).
  { revert sys Hr. apply rtc_ind_r.
    - split; [intros t Ht; by apply elem_of_nil in Ht | done].
    - intros sys1 sys2 Hr1 Hstep IH.
      apply (sys_step_consistent sys1); [|done..].
      by apply (reachable_single_pending System.delay), sys_reachable_hook. }
  destruct Hc as [Hargs Hload].
  split; [exact Hargs|]. split; [|split; [exact Hload | by apply sys_reachable_run]].
  by apply (debounce_single_timer_aux System.delay), sys_reachable_hook.
Qed.

Lemma pending_search_is_current_witness :
  ∃ es,
    System.ui (System.mkSystem (handleInputChange "ri" initialState)
                               (Debounce.debouncedCallback System.delay "ri" Debounce.mount)
                               [])
    = run es initialState.
Proof.
  apply (pending_search_is_current
           (System.mkSystem (handleInputChange "ri" initialState)
                            (Debounce.debouncedCallback System.delay "ri" Debounce.mount)
                            [])).
  apply rtc_once. apply (System.sys_input "ri" System.start). reflexivity.
Defined.

(** ** Highlight formatter: what holds for every modelled term *)

Section HighlightMore.

Import Highlight.

Lemma exec_append pat s m rest : exec pat s = Some (m, rest) → s = m +:+ rest.
Proof.
  revert s m rest. induction pat as [|a pat IH]; intros s m rest; simpl.
  - by intros [= <- <-].
  - destruct s as [|c s']; [done|]. destruct (atom_matches a c); [|done].
    destruct (exec pat s') as [[m' rest']|] eqn:E; [|done]. simpl.
    intros [= <- <-]. by rewrite (IH _ _ _ E).
Qed.

Lemma join_classify term parts : rendered (classify term <$> parts) = join_parts parts.
Proof.
  induction parts as [|part parts IH]; [done|]. simpl. rewrite <- IH.
  unfold classify. by case_bool_decide.
Qed.

(** The loop hands back every code unit it was given, in order. *)
Lemma split_loop_join pat :
  ∀ n s cur, (2 * String.length s + (if is_empty cur then 0 else 1) < n)%nat →
    join_parts (split_loop pat cur s) = cur +:+ s.
Proof.
  induction n as [|n IH]; intros s cur Hn; [lia|].
  destruct s as [|c s'].
  - rewrite split_loop_nil. simpl. by rewrite !append_nil_r.
  - rewrite split_loop_cons.
    assert (Hadv : join_parts (split_loop pat (cur +:+ String c "") s')
                   = cur +:+ String c s').
    { rewrite IH; [by rewrite append_assoc|].
      rewrite is_empty_snoc. simpl in Hn. destruct (is_empty cur); lia. }
    destruct (exec pat (String c s')) as [[m rest]|] eqn:E; [|exact Hadv].
    destruct (is_empty m && is_empty cur) eqn:He; [exact Hadv|].
    pose proof (exec_length _ _ _ _ E) as Hlen.
    rewrite (exec_append _ _ _ _ E). simpl. rewrite IH; [done|].
    simpl in Hn, Hlen. destruct m, cur; simpl in *; try discriminate; lia.
Qed.

Lemma split_join pat text : join_parts (split pat text) = text.
Proof.
  destruct text as [|c s]; unfold split.
  - by destruct (exec pat "").
  - by rewrite (split_loop_join pat (S (2 * String.length (String c s)))) by (simpl; lia).
Qed.

(** Patterns that match alike split alike. *)
Lemma exec_same_matches pat pat' s :
  same_matches pat pat' → exec pat s = exec pat' s.
Proof.
  intros Hsame. revert s. induction Hsame as [|a b pat pat' Hab _ IH]; intros s; [done|].
  simpl. destruct s as [|c s']; [done|]. by rewrite Hab, IH.
Qed.

Lemma split_loop_same_matches pat pat' :
  same_matches pat pat' →
  ∀ n s cur, (2 * String.length s + (if is_empty cur then 0 else 1) < n)%nat →
    split_loop pat cur s = split_loop pat' cur s.
Proof.
  intros Hsame. induction n as [|n IH]; intros s cur Hn; [lia|].
  destruct s as [|c s']; [by rewrite !split_loop_nil|].
  rewrite !split_loop_cons, <- (exec_same_matches _ _ _ Hsame).
  assert (Hadv : split_loop pat (cur +:+ String c "") s'
                 = split_loop pat' (cur +:+ String c "") s').
  { apply IH. rewrite is_empty_snoc. simpl in Hn. destruct (is_empty cur); lia. }
  destruct (exec pat (String c s')) as [[m rest]|] eqn:E; [|exact Hadv].
  destruct (is_empty m && is_empty cur) eqn:He; [exact Hadv|].
  pose proof (exec_length _ _ _ _ E) as Hlen.
  rewrite IH; [done|].
  simpl in Hn, Hlen. destruct m, cur; simpl in *; try discriminate; lia.
Qed.

Lemma split_same_matches pat pat' text :
  same_matches pat pat' → split pat text = split pat' text.
Proof.
  intros Hsame. destruct text as [|c s]; unfold split.
  - by rewrite (exec_same_matches _ _ _ Hsame).
  - by apply (split_loop_same_matches _ _ Hsame (S (2 * String.length (String c s))));
      simpl; lia.
Qed.

(** A code unit that lower-casing changes is no syntax character, nor
    is its lower-case form. *)
Lemma folded_not_syntax c :
  toLowerCase_unit c = c
  ∨ (syntax_character c = false ∧ syntax_character (toLowerCase_unit c) = false
     ∧ c ≠ "."%char ∧ toLowerCase_unit c ≠ "."%char).
Proof.
  destruct c as [[] [] [] [] [] [] [] []];
    first [ left; reflexivity
          | right; repeat split; first [reflexivity | discriminate] ].
Qed.

Lemma same_lower_same_kind c c' :
  toLowerCase_unit c = toLowerCase_unit c' →
  syntax_character c = syntax_character c' ∧ (c = "."%char ↔ c' = "."%char).
Proof.
  intros Heq.
  destruct (folded_not_syntax c) as [Hc|(Hs & Hs' & Hd & Hd')],
           (folded_not_syntax c') as [Hc'|(Ht & Ht' & He & He')].
  - rewrite Hc, Hc' in Heq. by subst.
  - rewrite Hc in Heq. subst c. rewrite Ht, Ht'. split; [done|]. split; done.
  - rewrite Hc' in Heq. subst c'. rewrite Hs, Hs'. split; [done|]. split; done.
  - rewrite Hs, Ht. split; [done|]. split; done.
Qed.

Lemma compile_same_lower term term' :
  toLowerCase term = toLowerCase term' →
  match compile term, compile term' with
  | Some pat, Some pat' => same_matches pat pat'
  | None, None => True
  | _, _ => False
  end.
Proof.
  revert term'. induction term as [|c term IH]; intros [|c' term']; simpl; try done.
  { constructor. }
  intros [= Hc Hrest]. specialize (IH _ Hrest).
  destruct (same_lower_same_kind c c' Hc) as [Hsyn Hdot].
  destruct (decide (c = "."%char)) as [Hd|Hd].
  - rewrite (bool_decide_eq_true_2 _ Hd), (bool_decide_eq_true_2 _ (proj1 Hdot Hd)).
    destruct (compile term), (compile term'); simpl; try done.
    constructor; [done | exact IH].
  - rewrite (bool_decide_eq_false_2 _ Hd).
    rewrite (bool_decide_eq_false_2 (c' = "."%char)) by tauto.
    rewrite <- Hsyn. destruct (syntax_character c); [done|].
    destruct (compile term), (compile term'); simpl; try done.
    constructor; [|exact IH]. intros x. simpl.
    apply bool_decide_ext. rewrite !Canonicalize_eq_iff. by rewrite Hc.
Qed.

(** A literal pattern finds every occurrence at the head of a text. *)
Lemma exec_literal_complete term m rest :
  toLowerCase m = toLowerCase term →
  exec (literal_pattern term) (m +:+ rest) = Some (m, rest).
Proof.
  unfold literal_pattern. revert m.
  induction term as [|a term IH]; intros [|c m]; simpl; try done.
  intros [= Hc Hl].
  rewrite bool_decide_eq_true_2 by (by apply Canonicalize_eq_iff).
  change (list_fmap ascii Atom Lit (list_ascii_of_string term))
    with (Lit <$> list_ascii_of_string term).
  by rewrite (IH _ Hl).
Qed.

Lemma SplitsOn_emphasised term text nodes part :
  SplitsOn term text nodes → Strong part ∈ nodes →
  toLowerCase part = toLowerCase term
  ∧ ∃ before after, text = before +:+ part +:+ after.
Proof.
  induction 1 as [u _ | u m rest nodes _ Hl _ IH]; intros Hin.
  - apply list_elem_of_singleton in Hin. discriminate.
  - apply elem_of_cons in Hin as [Hin|Hin]; [discriminate|].
    apply elem_of_cons in Hin as [[= ->]|Hin].
    + split; [done|]. by exists u, rest.
    + destruct (IH Hin) as (Hp & before & after & ->). split; [done|].
      exists (u +:+ m +:+ before), after. by rewrite !append_assoc.
Qed.

End HighlightMore.

(** X19.  Whatever the label and the search term (within the modelled
    patterns), the pieces the formatter returns spell the label: no code
    unit is lost, added or moved. *)
Theorem highlight_keeps_text (text term : string) (nodes : list Highlight.Node) :
  Highlight.highlightSearchTerm text term = Some nodes →
  Highlight.rendered nodes = text.
Proof.
  rewrite highlightSearchTerm_eq. destruct (Highlight.compile term) as [pat|]; [|done].
  simpl. intros [= <-]. by rewrite join_classify, split_join.
Qed.

Lemma highlight_keeps_text_witness :
  Highlight.rendered
    [Highlight.Text ""; Highlight.Text "R"; Highlight.Text ""; Highlight.Strong ".";
     Highlight.Text ""; Highlight.Text "S"; Highlight.Text ""]
  = "R.S".
Proof. apply (highlight_keeps_text "R.S" "."). reflexivity. Defined.

(** X20.  For a non-empty term without pattern syntax characters: when
    the term does not occur in the label, up to case, the label comes
    back as one plain piece; and every emphasised piece is an occurrence
    of the term in the label. *)
Theorem highlight_only_occurrences (text term : string) (nodes : list Highlight.Node) :
  term ≠ "" → Highlight.is_literal term = true →
  Highlight.highlightSearchTerm text term = Some nodes →
  (Highlight.no_occurrence_from term text "" → nodes = [Highlight.Text text])
  ∧ (∀ part, Highlight.Strong part ∈ nodes →
       Highlight.toLowerCase part = Highlight.toLowerCase term
       ∧ ∃ before after, text = before +:+ part +:+ after).
Proof.
  intros Hterm Hlit Hh.
  destruct (highlight_literal text term Hterm Hlit) as (nodes' & Hh' & Hs).
  rewrite Hh in Hh'. injection Hh' as <-.
  split; [|intros part; by apply SplitsOn_emphasised].
  intros Hno. destruct Hs as [u _ | u m rest nodes _ Hl _]; [done|].
  exfalso. apply (Hno u (m +:+ rest)); [done | |].
  - intros Hnil. destruct m; [|done].
    symmetry in Hl. by apply toLowerCase_empty in Hl.
  - exists m, rest. by rewrite append_nil_r.
Qed.

Lemma highlight_only_occurrences_witness :
  Highlight.toLowerCase "Rick" = Highlight.toLowerCase "rick"
  ∧ ∃ before after, "Rick Sanchez" = before +:+ "Rick" +:+ after.
Proof.
  apply (proj2 (highlight_only_occurrences "Rick Sanchez" "rick"
                  [Highlight.Text ""; Highlight.Strong "Rick"; Highlight.Text " Sanchez"]
                  ltac:(discriminate) eq_refl eq_refl) "Rick").
  apply elem_of_cons. right. apply elem_of_cons. by left.
Defined.

(** X21.  The letter case of the search term does not matter: two terms
    equal up to [toLowerCase] give the same pieces for every label. *)
Theorem highlight_ignores_term_case (text term term' : string) :
  Highlight.toLowerCase term = Highlight.toLowerCase term' →
  Highlight.highlightSearchTerm text term = Highlight.highlightSearchTerm text term'.
Proof.
  intros Hl. rewrite !highlightSearchTerm_eq.
  pose proof (compile_same_lower term term' Hl) as Hc.
  destruct (Highlight.compile term) as [pat|], (Highlight.compile term') as [pat'|];
    try done.
  simpl. f_equal. rewrite (split_same_matches _ _ text Hc).
  unfold Highlight.classify. by rewrite Hl.
Qed.

Lemma highlight_ignores_term_case_witness :
  Highlight.highlightSearchTerm "Rick Sanchez" "rIcK"
  = Highlight.highlightSearchTerm "Rick Sanchez" "RICK".
Proof. apply (highlight_ignores_term_case "Rick Sanchez" "rIcK" "RICK"). reflexivity. Defined.

(** X22.  For a non-empty term without pattern syntax characters, a
    label that starts with the term, up to case, comes back as an empty
    plain piece, the emphasised start, and then the pieces of the rest of
    the label. *)
Theorem highlight_leading_occurrence (term m rest : string) :
  term ≠ "" → Highlight.is_literal term = true →
  Highlight.toLowerCase m = Highlight.toLowerCase term →
  Highlight.highlightSearchTerm (m +:+ rest) term
  = (λ nodes, Highlight.Text "" :: Highlight.Strong m :: nodes)
      <$> Highlight.highlightSearchTerm rest term.
Proof.
  intros Hterm Hlit Hl. rewrite !highlightSearchTerm_eq, (compile_literal _ Hlit).
  simpl. f_equal.
  assert (Hm : m ≠ "").
  { intros ->. symmetry in Hl. by apply toLowerCase_empty in Hl. }
  assert (Hsplit : Highlight.split (Highlight.literal_pattern term) (m +:+ rest)
                   = "" :: m :: Highlight.split (Highlight.literal_pattern term) rest).
  { destruct m as [|c m]; [done|]. rewrite append_cons. unfold Highlight.split at 1.
    rewrite split_loop_cons, <- append_cons, (exec_literal_complete _ _ _ Hl).
    simpl. f_equal. f_equal. destruct rest as [|d rest]; [|done].
    unfold Highlight.split. rewrite split_loop_nil.
    destruct (Highlight.exec (Highlight.literal_pattern term) "") as [[m' rest']|] eqn:E;
      [|done].
    apply exec_literal_Some in E as [E Hl']. destruct m'; [|done].
    symmetry in Hl'. by apply toLowerCase_empty in Hl'. }
  rewrite Hsplit, !fmap_cons, (classify_match _ _ Hl).
  rewrite (classify_before term "" "" Hterm (no_occurrence_nil _ _)). done.
Qed.

Lemma highlight_leading_occurrence_witness :
  Highlight.highlightSearchTerm ("Rick" +:+ "y") "rick"
  = (λ nodes, Highlight.Text "" :: Highlight.Strong "Rick" :: nodes)
      <$> Highlight.highlightSearchTerm "y" "rick".
Proof.
  apply (highlight_leading_occurrence "rick" "Rick" "y"); [discriminate | reflexivity..].
Defined.
